(** * bitfield.h: a shallow embedding of the bit-manipulation macros

    The header [include/bitfield.h] consists of preprocessor macros over the
    unsigned types [bit8_t], [bit16_t], [bit32_t] and [bit64_t].  Every macro
    is embedded as a function on [Z]: a value of an unsigned type of [n] bits
    is an integer in [0, 2^n), conversions and unsigned arithmetic have their
    wrap-around written out, and an operation whose behaviour the C language
    leaves undefined (a shift whose count is negative or not smaller than the
    width of the promoted left operand) yields [None]. *)

From Stdlib Require Import ZArith Lia List Bool Ascii String.
Import ListNotations.
Local Open Scope Z_scope.

(** ** Integer types *)

(** [typedef uintN_t bitN_t], N = 8, 16, 32, 64. *)
Inductive width : Type := W8 | W16 | W32 | W64.

(** [sizeof(bf)] for an operand of each type. *)
Definition sizeof (w : width) : Z :=
  match w with W8 => 1 | W16 => 2 | W32 => 4 | W64 => 8 end.

Definition bits (w : width) : Z := sizeof w * 8.

(** The values an object of type [bitN_t] can hold. *)
Definition in_range (w : width) (x : Z) : Prop := 0 <= x < 2 ^ bits w.

(** Conversion to an unsigned type of [n] bits. *)
Definition wrap (n x : Z) : Z := x mod 2 ^ n.

(** Storing into an lvalue of type [bitN_t]. *)
Definition store (w : width) (x : Z) : Z := wrap (bits w) x.

(** [(bit64_t)(x)]. *)
Definition u64 (x : Z) : Z := wrap 64 x.

(** [~x] on a [bit64_t]. *)
Definition not64 (x : Z) : Z := u64 (Z.lnot x).

(** Width of the type an operand of type [bitN_t] has after the integer
    promotions: [bit8_t] and [bit16_t] become [int], the others stay. *)
Definition promoted_bits (w : width) : Z :=
  match w with W8 | W16 | W32 => 32 | W64 => 64 end.

(** ** Undefined behaviour as an error monad *)

Definition bind {A B : Type} (m : option A) (f : A -> option B) : option B :=
  match m with Some a => f a | None => None end.

Declare Scope ub_scope.
Delimit Scope ub_scope with ub.
Notation "x <- m ;; k" := (bind m (fun x => k))
  (at level 61, m at next level, right associativity) : ub_scope.
Local Open Scope ub_scope.

(** [x << n] with [x] a [bit64_t]: defined for [0 <= n < 64], the bits
    shifted out are lost. *)
Definition shl64 (x n : Z) : option Z :=
  if (0 <=? n) && (n <? 64) then Some (u64 (Z.shiftl x n)) else None.

(** [bf >> n] with [bf] of type [bitN_t]: the shift is done in the promoted
    type, on a non-negative value. *)
Definition shr (w : width) (bf n : Z) : option Z :=
  if (0 <=? n) && (n <? promoted_bits w) then Some (Z.shiftr bf n) else None.

(** ** The macros *)

(** [#define BIT(i) ((bit64_t)1 << ((bit64_t)(i) % 64))] *)
Definition BIT (i : Z) : option Z := shl64 1 (u64 i mod 64).

(** [#define SETBIT(bf, i) ((bf) |= (BIT(i)))]; the result is the new value
    of [bf]. *)
Definition SETBIT (w : width) (bf i : Z) : option Z :=
  b <- BIT i ;; Some (store w (Z.lor bf b)).

(** [#define NULLBIT(bf, i) ((bf) &= ~(BIT(i)))] *)
Definition NULLBIT (w : width) (bf i : Z) : option Z :=
  b <- BIT i ;; Some (store w (Z.land bf (not64 b))).

(** [#define ISSET(bf, i) (((bf) & (BIT(i))) != 0)] *)
Definition ISSET (bf i : Z) : option bool :=
  b <- BIT i ;; Some (negb (Z.land bf b =? 0)).

(** [#define ISNULL(bf, i) (((bf) & (BIT(i))) == 0)] *)
Definition ISNULL (bf i : Z) : option bool :=
  b <- BIT i ;; Some (Z.land bf b =? 0).

(** [#define TOGGLEBIT(bf, i) ((bf) ^= (BIT(i)))] *)
Definition TOGGLEBIT (w : width) (bf i : Z) : option Z :=
  b <- BIT i ;; Some (store w (Z.lxor bf b)).

(** [#define CLEARBIT(bf, i) NULLBIT(bf, i)] *)
Definition CLEARBIT (w : width) (bf i : Z) : option Z := NULLBIT w bf i.

(** [#define GETBIT(bf, i) (ISSET(bf, i) ? 1 : 0)] *)
Definition GETBIT (bf i : Z) : option Z :=
  s <- ISSET bf i ;; Some (if s then 1 else 0).

(** [#define BITMASK(n) (((bit64_t)1 << (n)) - 1)] *)
Definition BITMASK (n : Z) : option Z :=
  s <- shl64 1 n ;; Some (u64 (s - 1)).

(** [#define GETBITS(bf, start, len) (((bf) >> (start)) & BITMASK(len))] *)
Definition GETBITS (w : width) (bf start len : Z) : option Z :=
  x <- shr w bf start ;;
  m <- BITMASK len ;;
  Some (Z.land x m).

(** [#define SETBITS(bf, start, len, val)]:
    [(bf) = ((bf) & ~(BITMASK(len) << (start)))
            | (((val) & BITMASK(len)) << (start));] *)
Definition SETBITS (w : width) (bf start len val : Z) : option Z :=
  m <- BITMASK len ;;
  k <- shl64 m start ;;
  m' <- BITMASK len ;;
  v <- shl64 (Z.land (u64 val) m') start ;;
  Some (store w (Z.lor (Z.land bf (not64 k)) v)).

(** [#define CLEARBITS(bf, start, len) ((bf) &= ~(BITMASK(len) << (start)))] *)
Definition CLEARBITS (w : width) (bf start len : Z) : option Z :=
  m <- BITMASK len ;;
  k <- shl64 m start ;;
  Some (store w (Z.land bf (not64 k))).

(** ** BITS: construction from a character string *)

Definition is_one (c : ascii) : Z := if Ascii.eqb c "1" then 1 else 0.

(** One iteration of the loop body: [(bf) <<= 1; (bf) |= ( *_bits_ptr == '1');]
    each compound assignment stores into [bf]. *)
Definition BITS_body (w : width) (bf : Z) (c : ascii) : Z :=
  store w (Z.lor (store w (Z.shiftl bf 1)) (is_one c)).

(** [while ( *_bits_ptr) { ...; _bits_ptr++; }]: the characters are read up
    to the terminating NUL; the end of the Rocq string stands for it, and a
    NUL inside the string stops the loop the same way. *)
Fixpoint BITS_loop (w : width) (p : string) (bf : Z) : Z :=
  match p with
  | EmptyString => bf
  | String c p' =>
      if Ascii.eqb c zero then bf else BITS_loop w p' (BITS_body w bf c)
  end.

(** [#define BITS(bf, rval_cptr) do { (bf) = 0; ... } while(0)] *)
Definition BITS (w : width) (rval_cptr : string) : Z := BITS_loop w rval_cptr 0.

(** The characters of a C string: none of them is NUL. *)
Fixpoint c_string (s : string) : bool :=
  match s with
  | EmptyString => true
  | String c s' => negb (Ascii.eqb c zero) && c_string s'
  end.

(** The sentence of the specification, word for word: start from 0 and, for
    each character left to right, shift the accumulator left by one and OR
    in 1 exactly when the character is '1'.  The accumulator is the
    destination, an unsigned integer of [n] bits. *)
Definition ParseBits_spec (n : Z) (s : string) : Z :=
  fold_left (fun acc c => wrap n (Z.lor (wrap n (Z.shiftl acc 1)) (is_one c)))
            (list_ascii_of_string s) 0.

(** The number a string of binary digits denotes, leftmost digit most
    significant. *)
Fixpoint msb_first (s : string) : Z :=
  match s with
  | EmptyString => 0
  | String c s' => is_one c * 2 ^ Z.of_nat (String.length s') + msb_first s'
  end.

(** ** ONES and ZEROS: population count *)

(** Number of 1-bits among the [n] low bits of [x]. *)
Fixpoint count_ones (n : nat) (x : Z) : Z :=
  match n with
  | O => 0
  | S k => (if Z.testbit x (Z.of_nat k) then 1 else 0) + count_ones k x
  end.

Definition bit_value (b : bool) : Z := if b then 1 else 0.

(** Modelled from the spec: the compiler intrinsics [__builtin_popcount] and
    [__builtin_popcountll] are not defined in the header; the specification
    calls them the hardware population count, the number of 1-bits of the
    argument, an [unsigned int] for the first and an [unsigned long long]
    for the second. *)
Definition builtin_popcount (x : Z) : Z := count_ones 32 (wrap 32 x).
Definition builtin_popcountll (x : Z) : Z := count_ones 64 (wrap 64 x).

(** The two branches of [#if defined(__GNUC__) || defined(__clang__)]. *)
Inductive toolchain : Type := GnuOrClang | OtherCompiler.

(** First branch: dispatch on [sizeof(bf)], cast, intrinsic. *)
Definition ONES_builtin (w : width) (bf : Z) : Z :=
  if sizeof w =? 1 then builtin_popcount (wrap 8 bf)
  else if sizeof w =? 2 then builtin_popcount (wrap 16 bf)
  else if sizeof w =? 4 then builtin_popcount (wrap 32 bf)
  else if sizeof w =? 8 then builtin_popcountll (wrap 64 bf)
  else 0.

(** [_v - 1] in the type [_v] is promoted to: [int] for the two narrow types
    (no wrap-around can occur on a non-zero [_v]), unsigned and wrapping for
    the two wide ones. *)
Definition pred_promoted (w : width) (v : Z) : Z :=
  match w with
  | W8 | W16 => v - 1
  | W32 | W64 => wrap (promoted_bits w) (v - 1)
  end.

(** Second branch, Kernighan's loop [while (_v) { _v &= _v - 1; _c++; }];
    [None] when the fuel runs out before the loop ends. *)
Fixpoint kernighan (w : width) (fuel : nat) (v c : Z) : option Z :=
  match fuel with
  | O => None
  | S fuel' =>
      if v =? 0 then Some c
      else kernighan w fuel' (store w (Z.land v (pred_promoted w v))) (c + 1)
  end.

(** [__typeof__(bf) _v = (bf); int _c = 0; ...; _c;] *)
Definition ONES_fallback (w : width) (fuel : nat) (bf : Z) : option Z :=
  kernighan w fuel (store w bf) 0.

Definition ONES (tc : toolchain) (w : width) (fuel : nat) (bf : Z) : option Z :=
  match tc with
  | GnuOrClang => Some (ONES_builtin w bf)
  | OtherCompiler => ONES_fallback w fuel bf
  end.

(** [#define ZEROS(bf) ((sizeof(bf) * 8) - ONES(bf))]: the subtraction is
    done in [size_t], taken to be 64 bits wide. *)
Definition ZEROS (tc : toolchain) (w : width) (fuel : nat) (bf : Z) : option Z :=
  o <- ONES tc w fuel bf ;; Some (wrap 64 (sizeof w * 8 - wrap 64 o)).

(** The all-ones value of a type. *)
Definition all_ones (w : width) : Z := 2 ^ bits w - 1.

(** ** The range macros on a machine

    Where a shift count lies outside 0..63 the C language defines no result,
    and the macros above yield [None].  A machine still computes something:
    its shifter moves the operand by the count when the count is in 0..63, as
    C requires, and by an amount of its own otherwise, written [count_of n]
    (the count modulo 64 on x86-64 and AArch64, the count itself where all
    the bits are shifted out). *)

Section Machine.

Variable count_of : Z -> Z.

(** [x << n] with [x] a [bit64_t]. *)
Definition shl64_on (x n : Z) : Z :=
  u64 (Z.shiftl x (if (0 <=? n) && (n <? 64) then n else count_of n)).

(** [#define BITMASK(n) (((bit64_t)1 << (n)) - 1)] *)
Definition BITMASK_on (n : Z) : Z := u64 (shl64_on 1 n - 1).

(** [(bf) = ((bf) & ~(BITMASK(len) << (start)))
            | (((val) & BITMASK(len)) << (start));] *)
Definition SETBITS_on (w : width) (bf start len val : Z) : Z :=
  store w (Z.lor (Z.land bf (not64 (shl64_on (BITMASK_on len) start)))
                 (shl64_on (Z.land (u64 val) (BITMASK_on len)) start)).

(** [((bf) &= ~(BITMASK(len) << (start)))] *)
Definition CLEARBITS_on (w : width) (bf start len : Z) : Z :=
  store w (Z.land bf (not64 (shl64_on (BITMASK_on len) start))).

Definition clear_then_set_on (w : width) (bf start len val : Z) : Z :=
  SETBITS_on w (CLEARBITS_on w bf start len) start len val.

End Machine.

(** ** Compositions the properties speak about *)

Definition set_then_test (w : width) (bf i : Z) : option bool :=
  bf' <- SETBIT w bf i ;; ISSET bf' i.

Definition clear_then_test (w : width) (bf i : Z) : option bool :=
  bf' <- CLEARBIT w bf i ;; ISSET bf' i.

Definition clear_then_set (w : width) (bf start len val : Z) : option Z :=
  bf' <- CLEARBITS w bf start len ;; SETBITS w bf' start len val.

Definition twice {A : Type} (f : A -> option A) (a : A) : option A :=
  a' <- f a ;; f a'.

(** One macro invocation after another on the same operand. *)
Definition and_then (f g : Z -> option Z) (a : Z) : option Z :=
  a' <- f a ;; g a'.

(** [TOGGLEBIT] followed by [ISSET] at the same index. *)
Definition toggle_then_test (w : width) (bf i : Z) : option bool :=
  bf' <- TOGGLEBIT w bf i ;; ISSET bf' i.

(** [ONES] of the operand a macro has produced. *)
Definition ONES_after (tc : toolchain) (w : width) (fuel : nat)
           (op : option Z) : option Z :=
  bf' <- op ;; ONES tc w fuel bf'.

(** Number of characters '1' in a string. *)
Fixpoint count_one_chars (s : string) : Z :=
  match s with
  | EmptyString => 0
  | String c s' => is_one c + count_one_chars s'
  end.

(** Whether the character at a position exists and is '1'. *)
Definition char_is_one (c : option ascii) : bool :=
  match c with Some a => Ascii.eqb a "1" | None => false end.

(** * Properties *)

(** ** Widths and conversions *)

Lemma bits_bounds (w : width) : 8 <= bits w <= 64.
Proof. destruct w; cbn; lia. Qed.

Lemma bits_le_promoted (w : width) : bits w <= promoted_bits w <= 64.
Proof. destruct w; cbn; lia. Qed.

Lemma wrap_range (n x : Z) : 0 <= n -> 0 <= wrap n x < 2 ^ n.
Proof. intros Hn. unfold wrap. apply Z.mod_pos_bound. apply Z.pow_pos_nonneg; lia. Qed.

Lemma wrap_small (n x : Z) : 0 <= x < 2 ^ n -> wrap n x = x.
Proof. intros H. unfold wrap. now apply Z.mod_small. Qed.

Lemma store_in_range (w : width) (x : Z) : in_range w (store w x).
Proof. apply wrap_range. pose proof (bits_bounds w). lia. Qed.

Lemma store_small (w : width) (x : Z) : in_range w x -> store w x = x.
Proof. apply wrap_small. Qed.

Lemma in_range_u64 (w : width) (x : Z) : in_range w x -> 0 <= x < 2 ^ 64.
Proof.
  unfold in_range. intros [H0 H1]. split; [assumption|].
  eapply Z.lt_le_trans; [eassumption|].
  apply Z.pow_le_mono_r; [lia|]. pose proof (bits_bounds w). lia.
Qed.

(** ** Bits of the primitive operations *)

Lemma testbit_wrap (n x j : Z) :
  0 <= n -> Z.testbit (wrap n x) j = (j <? n) && Z.testbit x j.
Proof. intros Hn. unfold wrap. now apply Z.testbit_mod_pow2. Qed.

Lemma testbit_store (w : width) (x j : Z) :
  Z.testbit (store w x) j = (j <? bits w) && Z.testbit x j.
Proof. apply testbit_wrap. pose proof (bits_bounds w). lia. Qed.

Lemma testbit_u64 (x j : Z) : Z.testbit (u64 x) j = (j <? 64) && Z.testbit x j.
Proof. apply testbit_wrap. lia. Qed.

Lemma testbit_not64 (x j : Z) :
  Z.testbit (not64 x) j = (0 <=? j) && (j <? 64) && negb (Z.testbit x j).
Proof.
  unfold not64. rewrite testbit_u64.
  destruct (Z.leb_spec 0 j) as [Hj|Hj].
  - rewrite Z.lnot_spec by assumption. reflexivity.
  - rewrite (Z.testbit_neg_r (Z.lnot x)) by assumption.
    now rewrite andb_false_r.
Qed.

Lemma testbit_in_range (w : width) (x j : Z) :
  in_range w x -> Z.testbit x j = (j <? bits w) && Z.testbit x j.
Proof. intros H. rewrite <- testbit_store. now rewrite store_small. Qed.

Lemma testbit_above (w : width) (x j : Z) :
  in_range w x -> bits w <= j -> Z.testbit x j = false.
Proof.
  intros H Hj. rewrite (testbit_in_range w) by assumption.
  destruct (Z.ltb_spec j (bits w)); [lia | reflexivity].
Qed.

Lemma testbit_pow2 (k j : Z) : 0 <= k -> Z.testbit (2 ^ k) j = (k =? j).
Proof. apply Z.pow2_bits_eqb. Qed.

(** Case analysis on every comparison of a goal about bits. *)
Ltac cmp_cases :=
  repeat match goal with
         | |- context [?a <? ?b] => destruct (Z.ltb_spec a b)
         | |- context [?a <=? ?b] => destruct (Z.leb_spec a b)
         | |- context [?a =? ?b] => destruct (Z.eqb_spec a b)
         end;
  cbn [andb orb negb xorb]; try lia.

Ltac bool_cases :=
  repeat match goal with
         | |- context [Z.testbit ?a ?b] => destruct (Z.testbit a b)
         end;
  cbn [andb orb negb xorb]; try reflexivity; try lia; try discriminate.

(** ** BIT *)

Lemma index_mod (i : Z) : u64 i mod 64 = i mod 64.
Proof.
  unfold u64, wrap. apply Z.mod_mod_divide.
  exists (2 ^ 58). reflexivity.
Qed.

Lemma shl64_defined (x n : Z) :
  0 <= n < 64 -> shl64 x n = Some (u64 (Z.shiftl x n)).
Proof.
  intros H. unfold shl64.
  destruct (Z.leb_spec 0 n); [|lia]. destruct (Z.ltb_spec n 64); [|lia].
  reflexivity.
Qed.

Lemma shl64_undefined (x n : Z) : n < 0 \/ 64 <= n -> shl64 x n = None.
Proof.
  intros H. unfold shl64.
  destruct (Z.leb_spec 0 n); [|reflexivity].
  destruct (Z.ltb_spec n 64); [lia|reflexivity].
Qed.

Lemma pow2_u64 (k : Z) : 0 <= k < 64 -> u64 (2 ^ k) = 2 ^ k.
Proof.
  intros H. apply wrap_small. split.
  - apply Z.pow_nonneg; lia.
  - apply Z.pow_lt_mono_r; lia.
Qed.

Lemma BIT_value (i : Z) : BIT i = Some (2 ^ (i mod 64)).
Proof.
  unfold BIT. rewrite index_mod.
  assert (H : 0 <= i mod 64 < 64) by (apply Z.mod_pos_bound; lia).
  rewrite shl64_defined by assumption.
  rewrite Z.shiftl_1_l. now rewrite pow2_u64.
Qed.

(** C2: for every non-negative index [i], [BIT(i)] never fails, is the
    64-bit unsigned value [2^(i mod 64)], and equals [BIT(i mod 64)]. *)
Theorem BIT_wraparound (i : Z) :
  0 <= i ->
  BIT i = BIT (i mod 64) /\
  BIT i = Some (2 ^ (i mod 64)) /\
  0 <= 2 ^ (i mod 64) < 2 ^ 64.
Proof.
  intros Hi.
  assert (H : 0 <= i mod 64 < 64) by (apply Z.mod_pos_bound; lia).
  repeat split.
  - rewrite !BIT_value. now rewrite Z.mod_mod by lia.
  - apply BIT_value.
  - apply Z.pow_nonneg; lia.
  - apply Z.pow_lt_mono_r; lia.
Qed.

Lemma BIT_wraparound_witness :
  0 <= 70 /\ BIT 70 = BIT (70 mod 64) /\ BIT 70 = Some (2 ^ (70 mod 64)).
Proof.
  split; [lia|].
  destruct (BIT_wraparound 70 ltac:(lia)) as [H1 [H2 _]].
  split; assumption.
Defined.

(** ** Single-bit macros *)

Lemma SETBIT_value (w : width) (bf i : Z) :
  SETBIT w bf i = Some (store w (Z.lor bf (2 ^ (i mod 64)))).
Proof. unfold SETBIT. now rewrite BIT_value. Qed.

Lemma NULLBIT_value (w : width) (bf i : Z) :
  NULLBIT w bf i = Some (store w (Z.land bf (not64 (2 ^ (i mod 64))))).
Proof. unfold NULLBIT. now rewrite BIT_value. Qed.

Lemma TOGGLEBIT_value (w : width) (bf i : Z) :
  TOGGLEBIT w bf i = Some (store w (Z.lxor bf (2 ^ (i mod 64)))).
Proof. unfold TOGGLEBIT. now rewrite BIT_value. Qed.

Lemma land_pow2_eqb (x k : Z) :
  0 <= k -> (Z.land x (2 ^ k) =? 0) = negb (Z.testbit x k).
Proof.
  intros Hk. destruct (Z.eqb_spec (Z.land x (2 ^ k)) 0) as [E|E].
  - assert (T : Z.testbit (Z.land x (2 ^ k)) k = false)
      by (rewrite E; apply Z.testbit_0_l).
    rewrite Z.land_spec, testbit_pow2, Z.eqb_refl, andb_true_r in T by assumption.
    now rewrite T.
  - destruct (Z.testbit x k) eqn:T; [reflexivity|].
    exfalso. apply E. apply Z.bits_inj'. intros j Hj.
    rewrite Z.land_spec, testbit_pow2, Z.testbit_0_l by assumption.
    destruct (Z.eqb_spec k j) as [->|_]; [now rewrite T | apply andb_false_r].
Qed.

Lemma ISSET_value (bf i : Z) : ISSET bf i = Some (Z.testbit bf (i mod 64)).
Proof.
  unfold ISSET. rewrite BIT_value. cbn [bind].
  rewrite land_pow2_eqb by (apply Z.mod_pos_bound; lia).
  now rewrite negb_involutive.
Qed.

Lemma index_range (i : Z) : 0 <= i mod 64 < 64.
Proof. apply Z.mod_pos_bound; lia. Qed.

(** C1, as the code has it: [SETBIT] followed by [ISSET] at the same index
    gives true when the wrapped index [i mod 64] lies inside the operand
    (below its width); [CLEARBIT] followed by [ISSET] gives false for every
    non-negative index. *)
Theorem set_clear_then_test (w : width) (bf i : Z) :
  in_range w bf -> 0 <= i ->
  (i mod 64 < bits w -> set_then_test w bf i = Some true) /\
  clear_then_test w bf i = Some false.
Proof.
  intros Hbf Hi. pose proof (index_range i) as Hk. split.
  - intros Hw. unfold set_then_test. rewrite SETBIT_value. cbn [bind].
    rewrite ISSET_value. f_equal.
    rewrite testbit_store, Z.lor_spec, testbit_pow2, Z.eqb_refl by lia.
    rewrite orb_true_r. cmp_cases; reflexivity.
  - unfold clear_then_test, CLEARBIT. rewrite NULLBIT_value. cbn [bind].
    rewrite ISSET_value. f_equal.
    rewrite testbit_store, Z.land_spec, testbit_not64, testbit_pow2 by lia.
    rewrite Z.eqb_refl. cbn [negb]. now rewrite !andb_false_r.
Qed.

Lemma set_clear_then_test_witness :
  in_range W8 5 /\ 0 <= 3 /\ 3 mod 64 < bits W8 /\
  set_then_test W8 5 3 = Some true /\ clear_then_test W8 5 3 = Some false.
Proof.
  assert (R : in_range W8 5) by (unfold in_range; cbn; lia).
  assert (I : 0 <= 3) by lia.
  assert (K : 3 mod 64 < bits W8) by (cbn; lia).
  destruct (set_clear_then_test W8 5 3 R I) as [Hs Hc].
  exact (conj R (conj I (conj K (conj (Hs K) Hc)))).
Defined.

(** Beyond the width of the operand the wrapped index addresses no bit:
    [SETBIT] stores the operand back unchanged and [ISSET] answers false. *)
Lemma SETBIT_beyond_width (w : width) (bf i : Z) :
  in_range w bf -> bits w <= i mod 64 ->
  SETBIT w bf i = Some bf /\ ISSET bf i = Some false.
Proof.
  intros Hbf Hi. pose proof (index_range i) as Hk. split.
  - rewrite SETBIT_value. f_equal. apply Z.bits_inj'. intros j Hj.
    rewrite testbit_store, Z.lor_spec, testbit_pow2 by lia.
    rewrite (testbit_in_range w bf j Hbf). cmp_cases; bool_cases.
  - rewrite ISSET_value. f_equal. now apply (testbit_above w).
Qed.

(** C1 as stated fails: on an 8-bit operand, index 8 addresses no bit, so
    [SETBIT] leaves the operand as it was and [ISSET] answers false. *)
Lemma set_then_test_beyond_width :
  in_range W8 0 /\ 0 <= 8 /\ set_then_test W8 0 8 = Some false.
Proof.
  split; [unfold in_range; cbn; lia|]. split; [lia|]. reflexivity.
Qed.

(** C9: [SETBIT], [CLEARBIT] and [TOGGLEBIT] at a non-negative index [i]
    leave every bit at a position other than [i mod 64] as it was. *)
Theorem single_bit_frame (w : width) (bf i j : Z) :
  in_range w bf -> 0 <= i -> j <> i mod 64 ->
  (exists r, SETBIT w bf i = Some r /\ Z.testbit r j = Z.testbit bf j) /\
  (exists r, CLEARBIT w bf i = Some r /\ Z.testbit r j = Z.testbit bf j) /\
  (exists r, TOGGLEBIT w bf i = Some r /\ Z.testbit r j = Z.testbit bf j).
Proof.
  intros Hbf Hi Hj. pose proof (index_range i) as Hk.
  pose proof (bits_bounds w) as Hw.
  repeat split; eexists; (split; [first [apply SETBIT_value | apply NULLBIT_value
                                       | apply TOGGLEBIT_value]|]).
  - rewrite testbit_store, Z.lor_spec, testbit_pow2 by lia.
    rewrite (testbit_in_range w bf j Hbf). cmp_cases; bool_cases.
  - rewrite testbit_store, Z.land_spec, testbit_not64, testbit_pow2 by lia.
    rewrite (testbit_in_range w bf j Hbf).
    destruct (Z.leb_spec 0 j); [|now rewrite !(Z.testbit_neg_r bf), !andb_false_r by lia].
    cmp_cases; bool_cases.
  - rewrite testbit_store, Z.lxor_spec, testbit_pow2 by lia.
    rewrite (testbit_in_range w bf j Hbf). cmp_cases; bool_cases.
Qed.

Lemma single_bit_frame_witness :
  (exists r, SETBIT W8 5 3 = Some r /\ Z.testbit r 0 = Z.testbit 5 0) /\
  (exists r, CLEARBIT W8 5 3 = Some r /\ Z.testbit r 0 = Z.testbit 5 0) /\
  (exists r, TOGGLEBIT W8 5 3 = Some r /\ Z.testbit r 0 = Z.testbit 5 0).
Proof.
  apply (single_bit_frame W8 5 3 0).
  - unfold in_range; cbn; lia.
  - lia.
  - cbn; lia.
Defined.

(** C4: [TOGGLEBIT] applied twice with the same non-negative index gives
    back the original value of the operand. *)
Theorem TOGGLEBIT_involution (w : width) (bf i : Z) :
  in_range w bf -> 0 <= i ->
  twice (fun b => TOGGLEBIT w b i) bf = Some bf.
Proof.
  intros Hbf Hi. pose proof (index_range i) as Hk.
  unfold twice. rewrite TOGGLEBIT_value. cbn [bind]. rewrite TOGGLEBIT_value.
  f_equal. apply Z.bits_inj'. intros j Hj.
  rewrite !testbit_store, !Z.lxor_spec, testbit_store, Z.lxor_spec.
  rewrite testbit_pow2 by lia.
  rewrite (testbit_in_range w bf j Hbf). cmp_cases; bool_cases.
Qed.

Lemma TOGGLEBIT_involution_witness :
  in_range W16 40000 /\ 0 <= 77 /\
  twice (fun b => TOGGLEBIT W16 b 77) 40000 = Some 40000.
Proof.
  assert (R : in_range W16 40000) by (unfold in_range; cbn; lia).
  assert (I : 0 <= 77) by lia.
  exact (conj R (conj I (TOGGLEBIT_involution W16 40000 77 R I))).
Defined.

(** ** BITMASK and the range macros *)

Lemma ones_range (n : Z) : 0 <= n < 64 -> 0 <= Z.ones n < 2 ^ 64.
Proof.
  intros H. rewrite Z.ones_equiv.
  assert (0 < 2 ^ n) by (apply Z.pow_pos_nonneg; lia).
  assert (2 ^ n < 2 ^ 64) by (apply Z.pow_lt_mono_r; lia).
  lia.
Qed.

Lemma BITMASK_value (n : Z) : 0 <= n <= 63 -> BITMASK n = Some (2 ^ n - 1).
Proof.
  intros H. unfold BITMASK. rewrite shl64_defined by lia. cbn [bind].
  rewrite Z.shiftl_1_l, pow2_u64 by lia. f_equal.
  apply wrap_small. pose proof (ones_range n ltac:(lia)) as R.
  rewrite Z.ones_equiv in R. lia.
Qed.

Lemma BITMASK_ones (n : Z) : 0 <= n <= 63 -> BITMASK n = Some (Z.ones n).
Proof. intros H. rewrite BITMASK_value by assumption. now rewrite Z.ones_equiv. Qed.

Lemma shr_defined (w : width) (bf n : Z) :
  0 <= n < bits w -> shr w bf n = Some (Z.shiftr bf n).
Proof.
  intros H. unfold shr. pose proof (bits_le_promoted w).
  destruct (Z.leb_spec 0 n); [|lia].
  destruct (Z.ltb_spec n (promoted_bits w)); [reflexivity|lia].
Qed.

(** C7: for a start position inside the operand and a length from 0 to 63,
    [GETBITS(bf, start, len)] is [(bf >> start) & BITMASK(len)] with
    [BITMASK(len) = 2^len - 1]; and [GETBITS(0b11010110, 1, 4) = 0b1011]
    whatever the type of the operand. *)
Theorem GETBITS_value (w : width) (bf start len : Z) :
  in_range w bf -> 0 <= start < bits w -> 0 <= len <= 63 ->
  BITMASK len = Some (2 ^ len - 1) /\
  GETBITS w bf start len = Some (Z.land (Z.shiftr bf start) (2 ^ len - 1)) /\
  (forall w', GETBITS w' 214 1 4 = Some 11).
Proof.
  intros Hbf Hs Hl. split; [now apply BITMASK_value|]. split.
  - unfold GETBITS. rewrite shr_defined by assumption. cbn [bind].
    now rewrite BITMASK_value.
  - intros w'. destruct w'; reflexivity.
Qed.

Lemma GETBITS_value_witness :
  in_range W8 214 /\ 0 <= 1 < bits W8 /\ 0 <= 4 <= 63 /\
  GETBITS W8 214 1 4 = Some (Z.land (Z.shiftr 214 1) (2 ^ 4 - 1)).
Proof.
  assert (R : in_range W8 214) by (unfold in_range; cbn; lia).
  assert (S : 0 <= 1 < bits W8) by (cbn; lia).
  assert (L : 0 <= 4 <= 63) by lia.
  exact (conj R (conj S (conj L (proj1 (proj2 (GETBITS_value W8 214 1 4 R S L)))))).
Defined.

(** The value [SETBITS] stores, from the mask [k] and the shifted field [v]. *)
Lemma SETBITS_defined (w : width) (bf start len val : Z) :
  0 <= start < 64 -> 0 <= len <= 63 ->
  SETBITS w bf start len val =
  Some (store w (Z.lor (Z.land bf (not64 (u64 (Z.shiftl (Z.ones len) start))))
                       (u64 (Z.shiftl (Z.land (u64 val) (Z.ones len)) start)))).
Proof.
  intros Hs Hl. unfold SETBITS. rewrite BITMASK_ones by assumption. cbn [bind].
  rewrite !shl64_defined by assumption. reflexivity.
Qed.

Lemma CLEARBITS_defined (w : width) (bf start len : Z) :
  0 <= start < 64 -> 0 <= len <= 63 ->
  CLEARBITS w bf start len =
  Some (store w (Z.land bf (not64 (u64 (Z.shiftl (Z.ones len) start))))).
Proof.
  intros Hs Hl. unfold CLEARBITS. rewrite BITMASK_ones by assumption. cbn [bind].
  rewrite !shl64_defined by assumption. reflexivity.
Qed.

(** Bits of the shifted mask and of the shifted field. *)
Lemma testbit_field_mask (start len j : Z) :
  0 <= len -> 0 <= j ->
  Z.testbit (u64 (Z.shiftl (Z.ones len) start)) j
  = (j <? 64) && ((start <=? j) && (j <? start + len)).
Proof.
  intros Hl Hj. rewrite testbit_u64, Z.shiftl_spec, Z.testbit_ones by assumption.
  f_equal. cmp_cases; reflexivity.
Qed.

Lemma testbit_field_value (start len val j : Z) :
  0 <= len <= 64 -> 0 <= j ->
  Z.testbit (u64 (Z.shiftl (Z.land (u64 val) (Z.ones len)) start)) j
  = (j <? 64) && ((start <=? j) && (j <? start + len)) && Z.testbit val (j - start).
Proof.
  intros Hl Hj.
  rewrite testbit_u64, Z.shiftl_spec, Z.land_spec, testbit_u64, Z.testbit_ones by lia.
  cmp_cases; bool_cases.
Qed.

(** Within the counts for which C defines the shift, a machine computes
    what C defines. *)
Lemma shl64_on_math (count_of : Z -> Z) (x n : Z) :
  0 <= n -> n <= 63 \/ x = 0 -> shl64_on count_of x n = u64 (Z.shiftl x n).
Proof.
  intros Hn [Hle| ->]; unfold shl64_on.
  - destruct (Z.leb_spec 0 n); [|lia]. destruct (Z.ltb_spec n 64); [|lia].
    reflexivity.
  - now rewrite !Z.shiftl_0_l.
Qed.

Lemma BITMASK_on_ones (count_of : Z -> Z) (n : Z) :
  0 <= n <= 63 -> BITMASK_on count_of n = Z.ones n.
Proof.
  intros Hn. unfold BITMASK_on. rewrite shl64_on_math by lia.
  rewrite Z.shiftl_1_l, pow2_u64 by lia.
  rewrite Z.ones_equiv. apply wrap_small.
  pose proof (ones_range n ltac:(lia)) as R. rewrite Z.ones_equiv in R. lia.
Qed.

(** A field that ends inside a 64-bit value starts at a valid shift count
    or is empty, and then its mask and its value are 0. *)
Lemma field_shift_on (count_of : Z -> Z) (y start len : Z) :
  0 <= start -> 0 <= len -> start + len <= 64 ->
  shl64_on count_of (Z.land y (Z.ones len)) start
  = u64 (Z.shiftl (Z.land y (Z.ones len)) start).
Proof.
  intros Hs Hl Hend. apply shl64_on_math; [assumption|].
  destruct (Z_le_gt_dec start 63) as [Hle|Hgt]; [now left|right].
  replace len with 0 by lia. apply Z.land_0_r.
Qed.

Lemma mask_shift_on (count_of : Z -> Z) (start len : Z) :
  0 <= start -> 0 <= len -> start + len <= 64 ->
  shl64_on count_of (Z.ones len) start = u64 (Z.shiftl (Z.ones len) start).
Proof.
  intros Hs Hl Hend. apply shl64_on_math; [assumption|].
  destruct (Z_le_gt_dec start 63) as [Hle|Hgt]; [now left|right].
  replace len with 0 by lia. reflexivity.
Qed.

Lemma SETBITS_on_field (count_of : Z -> Z) (w : width) (bf start len val : Z) :
  0 <= start -> 0 <= len <= 63 -> start + len <= 64 ->
  SETBITS_on count_of w bf start len val
  = store w (Z.lor (Z.land bf (not64 (u64 (Z.shiftl (Z.ones len) start))))
                   (u64 (Z.shiftl (Z.land (u64 val) (Z.ones len)) start))).
Proof.
  intros Hs Hl Hend. unfold SETBITS_on. rewrite BITMASK_on_ones by assumption.
  now rewrite field_shift_on, mask_shift_on by lia.
Qed.

Lemma CLEARBITS_on_field (count_of : Z -> Z) (w : width) (bf start len : Z) :
  0 <= start -> 0 <= len <= 63 -> start + len <= 64 ->
  CLEARBITS_on count_of w bf start len
  = store w (Z.land bf (not64 (u64 (Z.shiftl (Z.ones len) start)))).
Proof.
  intros Hs Hl Hend. unfold CLEARBITS_on. rewrite BITMASK_on_ones by assumption.
  now rewrite mask_shift_on by lia.
Qed.

(** C3: for a start and a length of at most 63 with [start + len] not
    beyond the width of the operand, [SETBITS] stores a value whose bits
    [start .. start+len-1] are the low [len] bits of [val] and whose other
    bits are those of [bf], and [CLEARBITS] followed by [SETBITS] stores the
    same value.  This is the value C defines whenever the start is a valid
    shift count, and the value every shifter computes in the one remaining
    case, the empty field right after bit 63 of a 64-bit operand, whose zero
    mask is shifted by the full width. *)
Theorem SETBITS_field (count_of : Z -> Z) (w : width) (bf start len val : Z) :
  in_range w bf -> 0 <= start -> 0 <= len <= 63 -> start + len <= bits w ->
  exists r,
    SETBITS_on count_of w bf start len val = r /\
    (start <= 63 -> SETBITS w bf start len val = Some r) /\
    in_range w r /\
    (forall j, start <= j < start + len ->
               Z.testbit r j = Z.testbit val (j - start)) /\
    (forall j, ~ (start <= j < start + len) -> Z.testbit r j = Z.testbit bf j) /\
    (start < bits w -> GETBITS w r start len = Some (val mod 2 ^ len)) /\
    clear_then_set_on count_of w bf start len val = r /\
    (start <= 63 -> clear_then_set w bf start len val = Some r).
Proof.
  intros Hbf Hs Hl Hend. pose proof (bits_bounds w) as Hw.
  eexists. split; [apply SETBITS_on_field; lia|].
  set (r := store w _).
  assert (Hin : forall j, start <= j < start + len ->
                          Z.testbit r j = Z.testbit val (j - start)).
  { intros j Hj. subst r.
    rewrite testbit_store, Z.lor_spec, Z.land_spec, testbit_not64.
    rewrite testbit_field_mask, testbit_field_value by lia.
    cmp_cases; bool_cases. }
  assert (Hcs : store w (Z.lor (Z.land (store w (Z.land bf
                   (not64 (u64 (Z.shiftl (Z.ones len) start)))))
                   (not64 (u64 (Z.shiftl (Z.ones len) start))))
                   (u64 (Z.shiftl (Z.land (u64 val) (Z.ones len)) start))) = r).
  { subst r. apply Z.bits_inj'. intros j Hj.
    rewrite !testbit_store, !Z.lor_spec, !Z.land_spec, testbit_store, Z.land_spec.
    rewrite !testbit_not64. cmp_cases; bool_cases. }
  split; [intros Hc; apply SETBITS_defined; lia|].
  split; [apply store_in_range|]. split; [exact Hin|]. split; [|split; [|split]].
  - intros j Hj. subst r.
    destruct (Z.leb_spec 0 j) as [Hj0|Hj0];
      [|now rewrite !Z.testbit_neg_r by assumption].
    rewrite testbit_store, Z.lor_spec, Z.land_spec, testbit_not64.
    rewrite testbit_field_mask, testbit_field_value by lia.
    rewrite (testbit_in_range w bf j Hbf). cmp_cases; bool_cases.
  - intros Hsw. unfold GETBITS. rewrite shr_defined by lia. cbn [bind].
    rewrite BITMASK_ones by assumption. cbn [bind]. f_equal.
    apply Z.bits_inj'. intros j Hj.
    rewrite Z.land_spec, Z.shiftr_spec, Z.testbit_ones, Z.testbit_mod_pow2 by lia.
    destruct (Z.ltb_spec j len) as [Hjl|Hjl].
    + rewrite Hin by lia. replace (j + start - start) with j by lia.
      cmp_cases; bool_cases.
    + now rewrite !andb_false_r.
  - unfold clear_then_set_on.
    rewrite CLEARBITS_on_field, SETBITS_on_field by lia. exact Hcs.
  - intros Hc. unfold clear_then_set.
    rewrite CLEARBITS_defined by lia. cbn [bind].
    rewrite SETBITS_defined by lia. f_equal. exact Hcs.
Qed.

Lemma SETBITS_field_witness :
  (in_range W8 0 /\ 0 <= 2 /\ 0 <= 3 <= 63 /\ 2 + 3 <= bits W8 /\
   2 <= 63 /\ 2 < bits W8 /\
   exists r, SETBITS_on (fun n => n mod 64) W8 0 2 3 5 = r /\
             SETBITS W8 0 2 3 5 = Some r /\
             GETBITS W8 r 2 3 = Some (5 mod 2 ^ 3) /\
             clear_then_set W8 0 2 3 5 = Some r) /\
  (in_range W64 214 /\ 0 <= 64 /\ 0 <= 0 <= 63 /\ 64 + 0 <= bits W64 /\
   exists r, SETBITS_on (fun n => n mod 64) W64 214 64 0 5 = r /\
             clear_then_set_on (fun n => n mod 64) W64 214 64 0 5 = r /\
             in_range W64 r).
Proof.
  assert (R : in_range W8 0) by (unfold in_range; cbn; lia).
  assert (S : 0 <= 2) by lia.
  assert (L : 0 <= 3 <= 63) by lia.
  assert (E : 2 + 3 <= bits W8) by (cbn; lia).
  assert (C : 2 <= 63) by lia.
  assert (B : 2 < bits W8) by (cbn; lia).
  assert (R' : in_range W64 214) by (unfold in_range; cbn; lia).
  assert (S' : 0 <= 64) by lia.
  assert (L' : 0 <= 0 <= 63) by lia.
  assert (E' : 64 + 0 <= bits W64) by (cbn; lia).
  destruct (SETBITS_field (fun n => n mod 64) W8 0 2 3 5 R S L E)
    as [r [H1 [H2 [_ [_ [_ [H3 [_ H4]]]]]]]].
  destruct (SETBITS_field (fun n => n mod 64) W64 214 64 0 5 R' S' L' E')
    as [r' [H1' [_ [H2' [_ [_ [_ [H3' _]]]]]]]].
  split.
  - split; [exact R|]. split; [exact S|]. split; [exact L|].
    split; [exact E|]. split; [exact C|]. split; [exact B|].
    exists r. split; [exact H1|]. split; [exact (H2 C)|].
    split; [exact (H3 B)|exact (H4 C)].
  - split; [exact R'|]. split; [exact S'|]. split; [exact L'|].
    split; [exact E'|].
    exists r'. split; [exact H1'|]. split; [exact H3'|exact H2'].
Defined.

(** The empty field right after bit 63 of a 64-bit operand: the zero mask is
    shifted by 64, for which C defines no result; whatever amount a shifter
    takes for that count, zero stays zero and the operand is stored back
    unchanged. *)
Lemma SETBITS_empty_field_at_width (count_of : Z -> Z) (bf val : Z) :
  in_range W64 bf ->
  SETBITS W64 bf 64 0 val = None /\
  SETBITS_on count_of W64 bf 64 0 val = bf.
Proof.
  intros Hbf. pose proof (bits_bounds W64) as Hw. split; [reflexivity|].
  rewrite SETBITS_on_field by (cbn; lia).
  apply Z.bits_inj'. intros j Hj.
  rewrite testbit_store, Z.lor_spec, Z.land_spec, testbit_not64.
  rewrite testbit_field_mask, testbit_field_value by lia.
  rewrite (testbit_in_range W64 bf j Hbf). cmp_cases; bool_cases.
Qed.

(** Whether a 64-bit left shift is defined depends on the count alone. *)
Lemma shl64_same_count (x y n a : Z) :
  shl64 x n = Some a -> shl64 y n = Some (u64 (Z.shiftl y n)).
Proof.
  unfold shl64. destruct ((0 <=? n) && (n <? 64)); [reflexivity|discriminate].
Qed.

Lemma u64_zero : u64 0 = 0.
Proof. reflexivity. Qed.

(** C10: for every start and every length from 0 to 63, [CLEARBITS(bf,
    start, len)] and [SETBITS(bf, start, len, 0)] have the same outcome; for
    a start that is a valid shift count that outcome is a value. *)
Theorem CLEARBITS_as_SETBITS_zero (w : width) (bf start len : Z) :
  in_range w bf -> 0 <= len <= 63 ->
  CLEARBITS w bf start len = SETBITS w bf start len 0 /\
  (0 <= start < 64 ->
   exists r, CLEARBITS w bf start len = Some r /\ in_range w r).
Proof.
  intros Hbf Hl. split.
  - unfold CLEARBITS, SETBITS.
    destruct (BITMASK len) as [m|]; [cbn [bind]|reflexivity].
    destruct (shl64 m start) as [k|] eqn:Ek; [cbn [bind]|reflexivity].
    rewrite u64_zero, Z.land_0_l.
    rewrite (shl64_same_count m 0 start k Ek). cbn [bind].
    now rewrite Z.shiftl_0_l, u64_zero, Z.lor_0_r.
  - intros Hs. eexists. split; [now apply CLEARBITS_defined|].
    apply store_in_range.
Qed.

Lemma CLEARBITS_as_SETBITS_zero_witness :
  in_range W8 255 /\ 0 <= 3 <= 63 /\ 0 <= 2 < 64 /\
  CLEARBITS W8 255 2 3 = SETBITS W8 255 2 3 0 /\
  exists r, CLEARBITS W8 255 2 3 = Some r /\ in_range W8 r.
Proof.
  assert (R : in_range W8 255) by (unfold in_range; cbn; lia).
  assert (L : 0 <= 3 <= 63) by lia.
  assert (S : 0 <= 2 < 64) by lia.
  destruct (CLEARBITS_as_SETBITS_zero W8 255 2 3 R L) as [H1 H2].
  exact (conj R (conj L (conj S (conj H1 (H2 S))))).
Defined.

(** ** Idempotence *)

Lemma set_field_twice (w : width) (bf k v : Z) :
  store w (Z.lor (Z.land (store w (Z.lor (Z.land bf (not64 k)) v)) (not64 k)) v)
  = store w (Z.lor (Z.land bf (not64 k)) v).
Proof.
  apply Z.bits_inj'. intros j Hj.
  rewrite !testbit_store, !Z.lor_spec, !Z.land_spec, testbit_store, Z.lor_spec,
    Z.land_spec.
  cmp_cases; bool_cases.
Qed.

Lemma clear_field_twice (w : width) (bf k : Z) :
  store w (Z.land (store w (Z.land bf (not64 k))) (not64 k))
  = store w (Z.land bf (not64 k)).
Proof.
  apply Z.bits_inj'. intros j Hj.
  rewrite !testbit_store, !Z.land_spec, testbit_store, Z.land_spec.
  cmp_cases; bool_cases.
Qed.

Lemma set_bit_twice (w : width) (bf b : Z) :
  store w (Z.lor (store w (Z.lor bf b)) b) = store w (Z.lor bf b).
Proof.
  apply Z.bits_inj'. intros j Hj.
  rewrite !testbit_store, !Z.lor_spec, testbit_store, Z.lor_spec.
  cmp_cases; bool_cases.
Qed.

(** C8: [SETBIT], [CLEARBIT], [CLEARBITS] and [SETBITS] invoked twice in a
    row with the same arguments have the outcome of a single invocation. *)
Theorem idempotence (w : width) (bf i start len val : Z) :
  in_range w bf ->
  twice (fun b => SETBIT w b i) bf = SETBIT w bf i /\
  twice (fun b => CLEARBIT w b i) bf = CLEARBIT w bf i /\
  twice (fun b => CLEARBITS w b start len) bf = CLEARBITS w bf start len /\
  twice (fun b => SETBITS w b start len val) bf = SETBITS w bf start len val.
Proof.
  intros Hbf. unfold twice. repeat split.
  - rewrite SETBIT_value. cbn [bind]. rewrite SETBIT_value.
    now rewrite set_bit_twice.
  - unfold CLEARBIT. rewrite NULLBIT_value. cbn [bind]. rewrite NULLBIT_value.
    now rewrite clear_field_twice.
  - unfold CLEARBITS.
    destruct (BITMASK len) as [m|]; [cbn [bind]|reflexivity].
    destruct (shl64 m start) as [k|]; [cbn [bind]|reflexivity].
    now rewrite clear_field_twice.
  - unfold SETBITS.
    destruct (BITMASK len) as [m|]; [cbn [bind]|reflexivity].
    destruct (shl64 m start) as [k|]; [cbn [bind]|reflexivity].
    destruct (shl64 (Z.land (u64 val) m) start) as [v|]; [cbn [bind]|reflexivity].
    now rewrite set_field_twice.
Qed.

Lemma idempotence_witness :
  in_range W8 129 /\
  twice (fun b => SETBIT W8 b 4) 129 = Some 145 /\
  twice (fun b => CLEARBIT W8 b 7) 129 = Some 1 /\
  twice (fun b => CLEARBITS W8 b 0 3) 129 = Some 128 /\
  twice (fun b => SETBITS W8 b 2 3 5) 129 = Some 149.
Proof.
  assert (R : in_range W8 129) by (unfold in_range; cbn; lia).
  destruct (idempotence W8 129 4 0 3 5 R) as [H1 _].
  destruct (idempotence W8 129 7 0 3 5 R) as [_ [H2 [H3 _]]].
  destruct (idempotence W8 129 7 2 3 5 R) as [_ [_ [_ H4]]].
  split; [exact R|]. split; [rewrite H1; reflexivity|].
  split; [rewrite H2; reflexivity|]. split; [rewrite H3; reflexivity|].
  rewrite H4; reflexivity.
Defined.

(** ** BITS *)

Lemma is_one_cases (c : ascii) : is_one c = 0 \/ is_one c = 1.
Proof. unfold is_one. destruct (Ascii.eqb c "1"); auto. Qed.

Lemma BITS_loop_fold (w : width) (s : string) :
  c_string s = true ->
  forall acc,
    BITS_loop w s acc =
    fold_left (fun a c => wrap (bits w) (Z.lor (wrap (bits w) (Z.shiftl a 1)) (is_one c)))
              (list_ascii_of_string s) acc.
Proof.
  induction s as [|c s IH]; intros Hs acc; [reflexivity|].
  cbn in Hs |- *. apply andb_prop in Hs. destruct Hs as [Hc Hs].
  destruct (Ascii.eqb c zero); [discriminate|].
  now rewrite IH.
Qed.

(** On an even number, OR-ing in a 0 or a 1 is adding it. *)
Lemma lor_low_bit (x b : Z) : x mod 2 = 0 -> b = 0 \/ b = 1 -> Z.lor x b = x + b.
Proof.
  intros Hx [->| ->]; [now rewrite Z.lor_0_r, Z.add_0_r|].
  assert (D : Z.land x 1 = 0) by (change 1 with (Z.ones 1); now rewrite Z.land_ones).
  rewrite <- Z.lxor_lor by assumption. symmetry. now apply Z.add_nocarry_lxor.
Qed.

Lemma BITS_body_arith (w : width) (acc : Z) (c : ascii) :
  BITS_body w acc c = (2 * acc + is_one c) mod 2 ^ bits w.
Proof.
  unfold BITS_body, store, wrap. pose proof (bits_bounds w) as Hw.
  rewrite Z.shiftl_mul_pow2 by lia. change (2 ^ 1) with 2.
  rewrite lor_low_bit; [| |apply is_one_cases].
  - rewrite Zplus_mod_idemp_l. f_equal. lia.
  - rewrite Z.mod_mod_divide.
    + apply Z.mod_mul. lia.
    + exists (2 ^ (bits w - 1)). rewrite Z.mul_comm, <- Z.pow_succ_r by lia.
      f_equal. lia.
Qed.

Lemma msb_first_range (s : string) :
  0 <= msb_first s < 2 ^ Z.of_nat (String.length s).
Proof.
  induction s as [|c s IH]; [cbn; lia|].
  cbn [msb_first String.length]. rewrite Nat2Z.inj_succ, Z.pow_succ_r by lia.
  destruct (is_one_cases c) as [-> | ->]; lia.
Qed.

Lemma BITS_loop_value (w : width) (s : string) :
  c_string s = true ->
  forall acc,
    in_range w acc ->
    BITS_loop w s acc =
    (acc * 2 ^ Z.of_nat (String.length s) + msb_first s) mod 2 ^ bits w.
Proof.
  induction s as [|c s IH]; intros Hs acc Hacc.
  - cbn. rewrite Z.mul_1_r, Z.add_0_r. symmetry. now apply Z.mod_small.
  - cbn in Hs. apply andb_prop in Hs. destruct Hs as [Hc Hs].
    cbn [BITS_loop msb_first String.length].
    destruct (Ascii.eqb c zero); [discriminate|].
    rewrite (IH Hs) by apply store_in_range.
    rewrite BITS_body_arith, Nat2Z.inj_succ, Z.pow_succ_r by lia.
    rewrite <- Zplus_mod_idemp_l, Zmult_mod_idemp_l, Zplus_mod_idemp_l.
    f_equal. lia.
Qed.

(** C6: on a C string, [BITS] computes what the specification describes,
    the accumulator being the destination of width [bits w]; the result is
    the number the digits denote, leftmost digit most significant, reduced
    to that width, and that number itself when the string is not longer than
    the width; the empty string gives 0, "1011" gives 11 and "00001111"
    gives 15. *)
Theorem BITS_parse (w : width) (s : string) :
  c_string s = true ->
  BITS w s = ParseBits_spec (bits w) s /\
  BITS w s = wrap (bits w) (msb_first s) /\
  (Z.of_nat (String.length s) <= bits w -> BITS w s = msb_first s) /\
  BITS w "" = 0 /\ BITS w "1011" = 11 /\ BITS w "00001111" = 15.
Proof.
  intros Hs.
  assert (V : BITS w s = wrap (bits w) (msb_first s)).
  { unfold BITS. rewrite (BITS_loop_value w s Hs 0).
    - now rewrite Z.mul_0_l, Z.add_0_l.
    - pose proof (store_in_range w 0) as R. exact R. }
  split; [now apply BITS_loop_fold|]. split; [exact V|]. split.
  - intros Hlen. rewrite V. apply wrap_small.
    pose proof (msb_first_range s) as [H0 H1]. split; [assumption|].
    eapply Z.lt_le_trans; [exact H1|]. apply Z.pow_le_mono_r; lia.
  - repeat split; destruct w; reflexivity.
Qed.

Lemma BITS_parse_witness :
  c_string "10x1" = true /\
  BITS W8 "10x1" = ParseBits_spec (bits W8) "10x1" /\
  BITS W8 "10x1" = msb_first "10x1".
Proof.
  assert (C : c_string "10x1" = true) by reflexivity.
  destruct (BITS_parse W8 "10x1" C) as [H1 [_ [H3 _]]].
  refine (conj C (conj H1 (H3 _))). cbn. lia.
Defined.

(** ** ONES and ZEROS *)

Lemma count_ones_range (n : nat) (x : Z) : 0 <= count_ones n x <= Z.of_nat n.
Proof.
  induction n as [|n IH]; [cbn; lia|].
  cbn [count_ones]. rewrite Nat2Z.inj_succ.
  destruct (Z.testbit x (Z.of_nat n)); lia.
Qed.

Lemma count_ones_ext (n : nat) (x y : Z) :
  (forall j, 0 <= j < Z.of_nat n -> Z.testbit x j = Z.testbit y j) ->
  count_ones n x = count_ones n y.
Proof.
  induction n as [|n IH]; intros H; [reflexivity|].
  cbn [count_ones]. rewrite H by lia. rewrite IH; [reflexivity|].
  intros j Hj. apply H. lia.
Qed.

(** Counting over more bits than the value has changes nothing. *)
Lemma count_ones_above (n k : nat) (x : Z) :
  (forall j, Z.of_nat n <= j -> Z.testbit x j = false) ->
  count_ones (k + n) x = count_ones n x.
Proof.
  intros H. induction k as [|k IH]; [reflexivity|].
  cbn [Nat.add count_ones]. rewrite H by lia. now rewrite IH.
Qed.

(** The count, read from the low end. *)
Lemma count_ones_low (n : nat) (x : Z) :
  count_ones (S n) x = bit_value (Z.odd x) + count_ones n (Z.shiftr x 1).
Proof.
  induction n as [|n IH].
  - cbn [count_ones]. change (Z.of_nat 0) with 0. now rewrite Z.bit0_odd.
  - change (count_ones (S (S n)) x)
      with ((if Z.testbit x (Z.of_nat (S n)) then 1 else 0) + count_ones (S n) x).
    rewrite IH. cbn [count_ones].
    rewrite Z.shiftr_spec by lia.
    replace (Z.of_nat n + 1) with (Z.of_nat (S n)) by lia. lia.
Qed.

Lemma count_ones_zero (n : nat) : count_ones n 0 = 0.
Proof. induction n as [|n IH]; [reflexivity|]. cbn [count_ones]. now rewrite Z.testbit_0_l. Qed.

(** [v & (v - 1)] read from the low end: an odd [v] loses bit 0, an even
    one keeps its (clear) bit 0 and the step moves to the upper bits. *)
Lemma clear_lowest_odd (v : Z) :
  Z.odd v = true ->
  Z.odd (Z.land v (v - 1)) = false /\
  Z.shiftr (Z.land v (v - 1)) 1 = Z.shiftr v 1.
Proof.
  intros Hv. split.
  - rewrite <- Z.bit0_odd, Z.land_spec, !Z.bit0_odd, Z.sub_1_r, Z.odd_pred.
    rewrite <- Z.negb_odd, Hv. reflexivity.
  - rewrite Z.shiftr_land. rewrite !Z.shiftr_div_pow2 by lia. change (2 ^ 1) with 2.
    assert (E : v = 2 * (v / 2) + 1).
    { rewrite (Z.div_mod v 2) at 1 by lia. rewrite Zmod_odd, Hv. reflexivity. }
    replace ((v - 1) / 2) with (v / 2); [apply Z.land_diag|].
    apply (Z.div_unique _ 2 (v / 2) 0); lia.
Qed.

Lemma clear_lowest_even (v : Z) :
  Z.odd v = false ->
  Z.odd (Z.land v (v - 1)) = false /\
  Z.shiftr (Z.land v (v - 1)) 1 = Z.land (Z.shiftr v 1) (Z.shiftr v 1 - 1).
Proof.
  intros Hv. split.
  - rewrite <- Z.bit0_odd, Z.land_spec, !Z.bit0_odd, Hv. reflexivity.
  - rewrite Z.shiftr_land. rewrite !Z.shiftr_div_pow2 by lia. change (2 ^ 1) with 2.
    assert (E : v = 2 * (v / 2)).
    { rewrite (Z.div_mod v 2) at 1 by lia. rewrite Zmod_odd, Hv. lia. }
    f_equal. symmetry. apply (Z.div_unique _ 2 (v / 2 - 1) 1); lia.
Qed.

(** One step of Kernighan's loop removes exactly one 1-bit. *)
Lemma clear_lowest_count (n : nat) :
  forall v, 0 < v < 2 ^ Z.of_nat n ->
            count_ones n (Z.land v (v - 1)) = count_ones n v - 1.
Proof.
  induction n as [|n IH]; intros v Hv; [cbn in Hv; lia|].
  rewrite !count_ones_low.
  rewrite Nat2Z.inj_succ, Z.pow_succ_r in Hv by lia.
  destruct (Z.odd v) eqn:Ev.
  - destruct (clear_lowest_odd v Ev) as [-> ->]. cbn [bit_value]. lia.
  - destruct (clear_lowest_even v Ev) as [-> ->]. cbn [bit_value].
    assert (E : v = 2 * (v / 2)).
    { rewrite (Z.div_mod v 2) at 1 by lia. rewrite Zmod_odd, Ev. lia. }
    rewrite Z.shiftr_div_pow2 by lia. change (2 ^ 1) with 2.
    rewrite IH by lia. lia.
Qed.

Lemma width_nat (w : width) : Z.of_nat (Z.to_nat (bits w)) = bits w.
Proof. destruct w; reflexivity. Qed.

Lemma count_ones_store (w : width) (x : Z) :
  count_ones (Z.to_nat (bits w)) (store w x) = count_ones (Z.to_nat (bits w)) x.
Proof.
  apply count_ones_ext. intros j Hj. rewrite width_nat in Hj.
  rewrite testbit_store. destruct (Z.ltb_spec j (bits w)); [reflexivity|lia].
Qed.

Lemma pred_promoted_value (w : width) (v : Z) :
  in_range w v -> v <> 0 -> pred_promoted w v = v - 1.
Proof.
  unfold in_range. intros Hv Hnz.
  destruct w; cbn [pred_promoted promoted_bits]; try reflexivity;
    apply wrap_small; cbn in Hv; lia.
Qed.

(** Kernighan's loop ends within [count + 1] tests of its condition and has
    then added the number of 1-bits to the counter. *)
Lemma kernighan_count (w : width) (fuel : nat) :
  forall v c,
    in_range w v ->
    (Z.to_nat (count_ones (Z.to_nat (bits w)) v) < fuel)%nat ->
    kernighan w fuel v c = Some (c + count_ones (Z.to_nat (bits w)) v).
Proof.
  induction fuel as [|fuel IH]; intros v c Hv Hfuel; [lia|].
  cbn [kernighan]. destruct (Z.eqb_spec v 0) as [->|Hnz].
  - now rewrite count_ones_zero, Z.add_0_r.
  - rewrite pred_promoted_value by assumption.
    assert (Hstep : count_ones (Z.to_nat (bits w)) (store w (Z.land v (v - 1)))
                    = count_ones (Z.to_nat (bits w)) v - 1).
    { rewrite count_ones_store. apply clear_lowest_count.
      rewrite width_nat. unfold in_range in Hv. lia. }
    pose proof (count_ones_range (Z.to_nat (bits w)) (store w (Z.land v (v - 1)))).
    rewrite IH; [|apply store_in_range|lia].
    f_equal. lia.
Qed.

Lemma ONES_builtin_count (w : width) (bf : Z) :
  in_range w bf -> ONES_builtin w bf = count_ones (Z.to_nat (bits w)) bf.
Proof.
  intros Hbf. pose proof (fun j => testbit_above w bf j Hbf) as Habove.
  pose proof (store_small w bf Hbf) as Hst.
  assert (H64 : 0 <= bf < 2 ^ 64) by (now apply (in_range_u64 w)).
  unfold ONES_builtin, builtin_popcount, builtin_popcountll.
  destruct w; simpl (sizeof _ =? _); cbv iota;
    unfold store in Hst; cbn [bits sizeof Z.mul Pos.mul] in Hst; rewrite Hst.
  - rewrite (wrap_small 32) by (unfold in_range in Hbf; cbn in Hbf; lia).
    apply (count_ones_above 8 24). intros j Hj. apply Habove. cbn. lia.
  - rewrite (wrap_small 32) by (unfold in_range in Hbf; cbn in Hbf; lia).
    apply (count_ones_above 16 16). intros j Hj. apply Habove. cbn. lia.
  - rewrite Hst. reflexivity.
  - rewrite Hst. reflexivity.
Qed.

Lemma ONES_count (tc : toolchain) (w : width) (fuel : nat) (bf : Z) :
  in_range w bf -> (Z.to_nat (bits w) < fuel)%nat ->
  ONES tc w fuel bf = Some (count_ones (Z.to_nat (bits w)) bf).
Proof.
  intros Hbf Hfuel. destruct tc; cbn [ONES].
  - now rewrite ONES_builtin_count.
  - unfold ONES_fallback. rewrite store_small by assumption.
    pose proof (count_ones_range (Z.to_nat (bits w)) bf).
    rewrite kernighan_count by (assumption || lia). reflexivity.
Qed.

Lemma all_ones_in_range (w : width) : in_range w (all_ones w).
Proof. unfold in_range. destruct w; cbn; lia. Qed.

Lemma zero_in_range (w : width) : in_range w 0.
Proof. unfold in_range. destruct w; cbn; lia. Qed.

(** C5: for a value of width W, whichever branch of the header is compiled,
    [ONES] returns the number of 1-bits among its W bits and [ZEROS] returns
    W minus that number, so the two add up to W; [ONES(0)] is 0 and [ONES]
    of the all-ones value is W.  The loop of the second branch ends within
    W + 1 tests of its condition. *)
Theorem ONES_ZEROS_count (tc : toolchain) (w : width) (fuel : nat) (bf : Z) :
  in_range w bf -> (Z.to_nat (bits w) < fuel)%nat ->
  ONES tc w fuel bf = Some (count_ones (Z.to_nat (bits w)) bf) /\
  ZEROS tc w fuel bf = Some (bits w - count_ones (Z.to_nat (bits w)) bf) /\
  (exists o z, ONES tc w fuel bf = Some o /\ ZEROS tc w fuel bf = Some z /\
               o + z = bits w) /\
  ONES tc w fuel 0 = Some 0 /\
  ONES tc w fuel (all_ones w) = Some (bits w).
Proof.
  intros Hbf Hfuel.
  pose proof (ONES_count tc w fuel bf Hbf Hfuel) as Ho.
  pose proof (count_ones_range (Z.to_nat (bits w)) bf) as Hr.
  rewrite width_nat in Hr. pose proof (bits_bounds w) as Hw.
  assert (Hz : ZEROS tc w fuel bf = Some (bits w - count_ones (Z.to_nat (bits w)) bf)).
  { unfold ZEROS. rewrite Ho. cbn [bind]. f_equal. fold (bits w).
    rewrite (wrap_small 64 (count_ones _ _)) by lia. apply wrap_small. lia. }
  split; [exact Ho|]. split; [exact Hz|]. split; [|split].
  - exists (count_ones (Z.to_nat (bits w)) bf), (bits w - count_ones (Z.to_nat (bits w)) bf).
    repeat split; try assumption. lia.
  - rewrite (ONES_count tc w fuel 0 (zero_in_range w) Hfuel).
    now rewrite count_ones_zero.
  - rewrite (ONES_count tc w fuel (all_ones w) (all_ones_in_range w) Hfuel).
    f_equal. destruct w; vm_compute; reflexivity.
Qed.

Lemma ONES_ZEROS_count_witness :
  in_range W8 22 /\ (Z.to_nat (bits W8) < 9)%nat /\
  ONES OtherCompiler W8 9 22 = Some 3 /\ ZEROS OtherCompiler W8 9 22 = Some 5 /\
  ONES GnuOrClang W8 9 22 = Some 3 /\ ZEROS GnuOrClang W8 9 22 = Some 5.
Proof.
  assert (R : in_range W8 22) by (unfold in_range; cbn; lia).
  assert (F : (Z.to_nat (bits W8) < 9)%nat) by (cbn; lia).
  destruct (ONES_ZEROS_count OtherCompiler W8 9 22 R F) as [H1 [H2 _]].
  destruct (ONES_ZEROS_count GnuOrClang W8 9 22 R F) as [H3 [H4 _]].
  exact (conj R (conj F (conj H1 (conj H2 (conj H3 H4))))).
Defined.

(** * Further properties of the header *)

(** ** Single-bit macros *)

Lemma ISNULL_value (bf i : Z) : ISNULL bf i = Some (negb (Z.testbit bf (i mod 64))).
Proof.
  unfold ISNULL. rewrite BIT_value. cbn [bind].
  now rewrite land_pow2_eqb by (apply Z.mod_pos_bound; lia).
Qed.

Lemma GETBIT_value (bf i : Z) :
  GETBIT bf i = Some (bit_value (Z.testbit bf (i mod 64))).
Proof. unfold GETBIT. rewrite ISSET_value. reflexivity. Qed.

(** A value whose bits from the width on are clear is stored unchanged. *)
Lemma store_fits (w : width) (x : Z) :
  (forall j, bits w <= j -> Z.testbit x j = false) -> store w x = x.
Proof.
  intros H. apply Z.bits_inj'. intros j Hj. rewrite testbit_store.
  destruct (Z.ltb_spec j (bits w)); [reflexivity|]. symmetry. now apply H.
Qed.

(** X1: for every operand and every index, [ISSET], [ISNULL] and [GETBIT]
    are defined and consistent: [ISNULL] is the negation of [ISSET], and
    [GETBIT] is 1 exactly when [ISSET] holds and 0 otherwise. *)
Theorem test_macros_consistent (bf i : Z) :
  exists s, ISSET bf i = Some s /\ ISNULL bf i = Some (negb s) /\
            GETBIT bf i = Some (if s then 1 else 0) /\
            s = Z.testbit bf (i mod 64).
Proof.
  exists (Z.testbit bf (i mod 64)).
  rewrite ISSET_value, ISNULL_value, GETBIT_value. repeat split.
Qed.

(** X2: for an index that wraps to a position below the promoted width of
    the operand, [GETBIT(bf, i)] is the one-bit field
    [GETBITS(bf, i mod 64, 1)]. *)
Theorem GETBIT_as_GETBITS (w : width) (bf i : Z) :
  in_range w bf -> i mod 64 < promoted_bits w ->
  GETBITS w bf (i mod 64) 1 = GETBIT bf i.
Proof.
  intros Hbf Hi. pose proof (index_range i) as Hk.
  rewrite GETBIT_value. unfold GETBITS, shr.
  destruct (Z.leb_spec 0 (i mod 64)); [|lia].
  destruct (Z.ltb_spec (i mod 64) (promoted_bits w)); [|lia].
  cbn [andb bind]. rewrite (BITMASK_ones 1) by lia. cbn [bind]. f_equal.
  rewrite Z.land_ones by lia. change (2 ^ 1) with 2.
  rewrite Z.shiftr_div_pow2 by lia.
  change (bit_value (Z.testbit bf (i mod 64)))
    with (Z.b2z (Z.testbit bf (i mod 64))).
  now rewrite Z.testbit_spec' by lia.
Qed.

Lemma GETBIT_as_GETBITS_witness :
  in_range W8 214 /\ 70 mod 64 < promoted_bits W8 /\
  GETBITS W8 214 (70 mod 64) 1 = GETBIT 214 70.
Proof.
  assert (R : in_range W8 214) by (unfold in_range; cbn; lia).
  assert (I : 70 mod 64 < promoted_bits W8) by (cbn; lia).
  exact (conj R (conj I (GETBIT_as_GETBITS W8 214 70 R I))).
Defined.

(** X3: when the wrapped index is not below the width of the operand,
    [SETBIT], [CLEARBIT] and [TOGGLEBIT] store the operand back unchanged,
    [ISSET] is false, [ISNULL] is true and [GETBIT] is 0. *)
Theorem index_beyond_width (w : width) (bf i : Z) :
  in_range w bf -> bits w <= i mod 64 ->
  SETBIT w bf i = Some bf /\ CLEARBIT w bf i = Some bf /\
  TOGGLEBIT w bf i = Some bf /\
  ISSET bf i = Some false /\ ISNULL bf i = Some true /\ GETBIT bf i = Some 0.
Proof.
  intros Hbf Hi. pose proof (index_range i) as Hk.
  assert (T : Z.testbit bf (i mod 64) = false) by (now apply (testbit_above w)).
  rewrite ISSET_value, ISNULL_value, GETBIT_value, T.
  unfold CLEARBIT. rewrite SETBIT_value, NULLBIT_value, TOGGLEBIT_value.
  repeat split; f_equal; apply Z.bits_inj'; intros j Hj;
    rewrite testbit_store, ?Z.lor_spec, ?Z.land_spec, ?Z.lxor_spec,
      ?testbit_not64, testbit_pow2 by lia;
    rewrite (testbit_in_range w bf j Hbf); cmp_cases; bool_cases.
Qed.

Lemma index_beyond_width_witness :
  in_range W16 513 /\ bits W16 <= 80 mod 64 /\
  SETBIT W16 513 80 = Some 513 /\ TOGGLEBIT W16 513 80 = Some 513 /\
  ISSET 513 80 = Some false.
Proof.
  assert (R : in_range W16 513) by (unfold in_range; cbn; lia).
  assert (I : bits W16 <= 80 mod 64) by (cbn; lia).
  destruct (index_beyond_width W16 513 80 R I) as [H1 [_ [H3 [H4 _]]]].
  exact (conj R (conj I (conj H1 (conj H3 H4)))).
Defined.

(** Setting a clear bit adds its weight. *)
Lemma add_pow2_bit (c k : Z) :
  0 <= k -> Z.testbit c k = false -> Z.lor c (2 ^ k) = c + 2 ^ k.
Proof.
  intros Hk T.
  assert (D : Z.land c (2 ^ k) = 0).
  { apply Z.eqb_eq. rewrite land_pow2_eqb by assumption. now rewrite T. }
  rewrite <- Z.lxor_lor by assumption. symmetry. now apply Z.add_nocarry_lxor.
Qed.

(** Bits of the three stored values, for an operand in range. *)
Lemma testbit_set (w : width) (bf k j : Z) :
  in_range w bf -> 0 <= k -> 0 <= j ->
  Z.testbit (store w (Z.lor bf (2 ^ k))) j
  = (j <? bits w) && (Z.testbit bf j || (k =? j)).
Proof.
  intros Hbf Hk Hj. now rewrite testbit_store, Z.lor_spec, testbit_pow2 by lia.
Qed.

Lemma testbit_clear (w : width) (bf k j : Z) :
  in_range w bf -> 0 <= k -> 0 <= j ->
  Z.testbit (store w (Z.land bf (not64 (2 ^ k)))) j
  = Z.testbit bf j && negb (k =? j).
Proof.
  intros Hbf Hk Hj. pose proof (bits_bounds w).
  rewrite testbit_store, Z.land_spec, testbit_not64, testbit_pow2 by lia.
  rewrite (testbit_in_range w bf j Hbf). cmp_cases; bool_cases.
Qed.

Lemma testbit_toggle (w : width) (bf k j : Z) :
  in_range w bf -> 0 <= k -> 0 <= j ->
  Z.testbit (store w (Z.lxor bf (2 ^ k))) j
  = (j <? bits w) && xorb (Z.testbit bf j) (k =? j).
Proof.
  intros Hbf Hk Hj. now rewrite testbit_store, Z.lxor_spec, testbit_pow2 by lia.
Qed.

(** X4: for an index that wraps to a position [k] inside the operand,
    [SETBIT] adds [2^k] when bit [k] is clear and changes nothing when it is
    set, [CLEARBIT] subtracts [2^k] when the bit is set and changes nothing
    when it is clear, and [TOGGLEBIT] subtracts or adds accordingly. *)
Theorem single_bit_arithmetic (w : width) (bf i : Z) :
  in_range w bf -> i mod 64 < bits w ->
  SETBIT w bf i
  = Some (if Z.testbit bf (i mod 64) then bf else bf + 2 ^ (i mod 64)) /\
  CLEARBIT w bf i
  = Some (if Z.testbit bf (i mod 64) then bf - 2 ^ (i mod 64) else bf) /\
  TOGGLEBIT w bf i
  = Some (if Z.testbit bf (i mod 64)
          then bf - 2 ^ (i mod 64) else bf + 2 ^ (i mod 64)).
Proof.
  intros Hbf Hi. pose proof (index_range i) as Hk.
  unfold CLEARBIT. rewrite SETBIT_value, NULLBIT_value, TOGGLEBIT_value.
  set (k := i mod 64) in *.
  destruct (Z.testbit bf k) eqn:T.
  - assert (C : store w (Z.land bf (not64 (2 ^ k))) + 2 ^ k = bf).
    { rewrite <- add_pow2_bit; [|lia|].
      - apply Z.bits_inj'. intros j Hj.
        rewrite Z.lor_spec, testbit_clear, testbit_pow2 by (assumption || lia).
        destruct (Z.eqb_spec k j) as [->|_]; [now rewrite T|].
        cbn [negb]. now rewrite andb_true_r, orb_false_r.
      - rewrite testbit_clear by (assumption || lia). rewrite Z.eqb_refl. apply andb_false_r. }
    repeat split; f_equal.
    + apply Z.bits_inj'. intros j Hj. rewrite testbit_set by (assumption || lia).
      rewrite (testbit_in_range w bf j Hbf).
      destruct (Z.eqb_spec k j) as [<-|_]; [rewrite T|]; cmp_cases; bool_cases.
    + lia.
    + transitivity (store w (Z.land bf (not64 (2 ^ k)))); [|lia].
      apply Z.bits_inj'. intros j Hj.
      rewrite testbit_toggle, testbit_clear by (assumption || lia).
      rewrite (testbit_in_range w bf j Hbf).
      destruct (Z.eqb_spec k j) as [<-|_]; [rewrite T|]; cmp_cases; bool_cases.
  - assert (S : store w (Z.lor bf (2 ^ k)) = bf + 2 ^ k).
    { rewrite <- add_pow2_bit by (assumption || lia).
      apply Z.bits_inj'. intros j Hj. rewrite testbit_set by (assumption || lia).
      rewrite Z.lor_spec, testbit_pow2 by lia.
      rewrite (testbit_in_range w bf j Hbf). cmp_cases; bool_cases. }
    repeat split; f_equal.
    + exact S.
    + apply Z.bits_inj'. intros j Hj. rewrite testbit_clear by (assumption || lia).
      destruct (Z.eqb_spec k j) as [<-|_]; [rewrite T; reflexivity|].
      cbn [negb]. apply andb_true_r.
    + rewrite <- S. apply Z.bits_inj'. intros j Hj.
      rewrite testbit_toggle, testbit_set by (assumption || lia).
      destruct (Z.eqb_spec k j) as [<-|_]; [rewrite T|]; cmp_cases; bool_cases.
Qed.

Lemma single_bit_arithmetic_witness :
  in_range W8 5 /\ 3 mod 64 < bits W8 /\
  SETBIT W8 5 3 = Some 13 /\ CLEARBIT W8 5 3 = Some 5 /\
  TOGGLEBIT W8 5 3 = Some 13.
Proof.
  assert (R : in_range W8 5) by (unfold in_range; cbn; lia).
  assert (I : 3 mod 64 < bits W8) by (cbn; lia).
  exact (conj R (conj I (single_bit_arithmetic W8 5 3 R I))).
Defined.

Ltac bit_side := first [assumption | apply store_in_range | lia].

(** X5: [TOGGLEBIT] does what [CLEARBIT] does when [ISSET] holds at the
    index and what [SETBIT] does otherwise, for every index. *)
Theorem TOGGLEBIT_by_cases (w : width) (bf i : Z) :
  in_range w bf ->
  TOGGLEBIT w bf i
  = (s <- ISSET bf i ;; if s then CLEARBIT w bf i else SETBIT w bf i).
Proof.
  intros Hbf. pose proof (index_range i) as Hk.
  rewrite ISSET_value. cbn [bind]. unfold CLEARBIT.
  rewrite TOGGLEBIT_value, NULLBIT_value, SETBIT_value.
  destruct (Z.testbit bf (i mod 64)) eqn:T; f_equal;
    apply Z.bits_inj'; intros j Hj;
    rewrite testbit_toggle, ?testbit_clear, ?testbit_set by bit_side;
    rewrite (testbit_in_range w bf j Hbf);
    (destruct (Z.eqb_spec (i mod 64) j) as [<-|_]; [rewrite T|]);
    cmp_cases; bool_cases.
Qed.

Lemma TOGGLEBIT_by_cases_witness :
  in_range W8 5 /\ TOGGLEBIT W8 5 2 = CLEARBIT W8 5 2 /\
  TOGGLEBIT W8 5 1 = SETBIT W8 5 1.
Proof.
  assert (R : in_range W8 5) by (unfold in_range; cbn; lia).
  exact (conj R (conj (TOGGLEBIT_by_cases W8 5 2 R) (TOGGLEBIT_by_cases W8 5 1 R))).
Defined.

(** X6: at one index the later of [SETBIT] and [CLEARBIT] decides:
    [SETBIT] then [CLEARBIT] is [CLEARBIT], and [CLEARBIT] then [SETBIT] is
    [SETBIT]. *)
Theorem set_clear_last_wins (w : width) (bf i : Z) :
  in_range w bf ->
  and_then (fun b => SETBIT w b i) (fun b => CLEARBIT w b i) bf = CLEARBIT w bf i /\
  and_then (fun b => CLEARBIT w b i) (fun b => SETBIT w b i) bf = SETBIT w bf i.
Proof.
  intros Hbf. pose proof (index_range i) as Hk.
  unfold and_then, CLEARBIT.
  rewrite SETBIT_value, NULLBIT_value. cbn [bind].
  rewrite SETBIT_value, NULLBIT_value.
  split; f_equal; apply Z.bits_inj'; intros j Hj;
    rewrite ?testbit_clear, ?testbit_set, ?testbit_clear by bit_side;
    rewrite (testbit_in_range w bf j Hbf); cmp_cases; bool_cases.
Qed.

Lemma set_clear_last_wins_witness :
  in_range W8 5 /\
  and_then (fun b => SETBIT W8 b 1) (fun b => CLEARBIT W8 b 1) 5 = Some 5 /\
  and_then (fun b => CLEARBIT W8 b 1) (fun b => SETBIT W8 b 1) 5 = Some 7.
Proof.
  assert (R : in_range W8 5) by (unfold in_range; cbn; lia).
  destruct (set_clear_last_wins W8 5 1 R) as [H1 H2].
  split; [exact R|]. split; [rewrite H1|rewrite H2]; reflexivity.
Defined.

(** X7: two single-bit macros commute when they are the same macro, and
    also when they are different macros applied at indices that wrap to
    different positions. *)
Theorem single_bit_commute (w : width) (bf i j : Z) :
  in_range w bf ->
  and_then (fun b => SETBIT w b i) (fun b => SETBIT w b j) bf
  = and_then (fun b => SETBIT w b j) (fun b => SETBIT w b i) bf /\
  and_then (fun b => CLEARBIT w b i) (fun b => CLEARBIT w b j) bf
  = and_then (fun b => CLEARBIT w b j) (fun b => CLEARBIT w b i) bf /\
  and_then (fun b => TOGGLEBIT w b i) (fun b => TOGGLEBIT w b j) bf
  = and_then (fun b => TOGGLEBIT w b j) (fun b => TOGGLEBIT w b i) bf /\
  (i mod 64 <> j mod 64 ->
   and_then (fun b => SETBIT w b i) (fun b => CLEARBIT w b j) bf
   = and_then (fun b => CLEARBIT w b j) (fun b => SETBIT w b i) bf /\
   and_then (fun b => SETBIT w b i) (fun b => TOGGLEBIT w b j) bf
   = and_then (fun b => TOGGLEBIT w b j) (fun b => SETBIT w b i) bf /\
   and_then (fun b => CLEARBIT w b i) (fun b => TOGGLEBIT w b j) bf
   = and_then (fun b => TOGGLEBIT w b j) (fun b => CLEARBIT w b i) bf).
Proof.
  intros Hbf. pose proof (index_range i) as Hi. pose proof (index_range j) as Hj.
  unfold and_then, CLEARBIT.
  rewrite !SETBIT_value, !NULLBIT_value, !TOGGLEBIT_value. cbn [bind].
  rewrite !SETBIT_value, !NULLBIT_value, !TOGGLEBIT_value.
  repeat split; try intros Hne; repeat split; f_equal;
    apply Z.bits_inj'; intros p Hp;
    rewrite ?testbit_set, ?testbit_clear, ?testbit_toggle by bit_side;
    rewrite ?testbit_set, ?testbit_clear, ?testbit_toggle by bit_side;
    rewrite (testbit_in_range w bf p Hbf); cmp_cases; bool_cases.
Qed.

Lemma single_bit_commute_witness :
  in_range W8 5 /\ 1 mod 64 <> 2 mod 64 /\
  and_then (fun b => SETBIT W8 b 1) (fun b => CLEARBIT W8 b 2) 5
  = and_then (fun b => CLEARBIT W8 b 2) (fun b => SETBIT W8 b 1) 5.
Proof.
  assert (R : in_range W8 5) by (unfold in_range; cbn; lia).
  assert (N : 1 mod 64 <> 2 mod 64) by (cbn; lia).
  destruct (single_bit_commute W8 5 1 2 R) as [_ [_ [_ H]]].
  exact (conj R (conj N (proj1 (H N)))).
Defined.

Lemma BIT_period (i n : Z) : BIT (i + 64 * n) = BIT i.
Proof.
  rewrite !BIT_value. rewrite (Z.mul_comm 64 n). now rewrite Z_mod_plus_full.
Qed.

(** X8: every single-bit macro has period 64 in its index, for indices of
    either sign: an index and the index shifted by any multiple of 64
    address the same bit. *)
Theorem index_period (w : width) (bf i n : Z) :
  BIT (i + 64 * n) = BIT i /\
  SETBIT w bf (i + 64 * n) = SETBIT w bf i /\
  CLEARBIT w bf (i + 64 * n) = CLEARBIT w bf i /\
  TOGGLEBIT w bf (i + 64 * n) = TOGGLEBIT w bf i /\
  ISSET bf (i + 64 * n) = ISSET bf i /\
  ISNULL bf (i + 64 * n) = ISNULL bf i /\
  GETBIT bf (i + 64 * n) = GETBIT bf i.
Proof.
  unfold GETBIT, CLEARBIT, SETBIT, NULLBIT, TOGGLEBIT, ISSET, ISNULL.
  rewrite !BIT_period. repeat split.
Qed.

(** X9: for an index that wraps to a position inside the operand, [ISSET]
    after [TOGGLEBIT] is the negation of [ISSET] before. *)
Theorem toggle_flips_test (w : width) (bf i : Z) :
  in_range w bf -> i mod 64 < bits w ->
  toggle_then_test w bf i = (s <- ISSET bf i ;; Some (negb s)).
Proof.
  intros Hbf Hi. pose proof (index_range i) as Hk.
  unfold toggle_then_test. rewrite TOGGLEBIT_value. cbn [bind].
  rewrite !ISSET_value. cbn [bind]. f_equal.
  rewrite testbit_toggle by bit_side. rewrite Z.eqb_refl.
  cmp_cases. now destruct (Z.testbit bf (i mod 64)).
Qed.

Lemma toggle_flips_test_witness :
  in_range W8 5 /\ 2 mod 64 < bits W8 /\ toggle_then_test W8 5 2 = Some false.
Proof.
  assert (R : in_range W8 5) by (unfold in_range; cbn; lia).
  assert (I : 2 mod 64 < bits W8) by (cbn; lia).
  split; [exact R|]. split; [exact I|].
  rewrite (toggle_flips_test W8 5 2 R I). reflexivity.
Defined.

Lemma testbit_one (m : Z) : Z.testbit 1 m = (0 =? m).
Proof. exact (Z.pow2_bits_eqb 0 m (Z.le_refl 0)). Qed.

(** X10: the single-bit macros are the range macros on a field of length 1
    at the wrapped index: [SETBIT(bf, i)] is [SETBITS(bf, i mod 64, 1, 1)]
    and [CLEARBIT(bf, i)] is [CLEARBITS(bf, i mod 64, 1)]. *)
Theorem single_bit_as_field (w : width) (bf i : Z) :
  in_range w bf ->
  SETBIT w bf i = SETBITS w bf (i mod 64) 1 1 /\
  CLEARBIT w bf i = CLEARBITS w bf (i mod 64) 1.
Proof.
  intros Hbf. pose proof (index_range i) as Hk. pose proof (bits_bounds w) as Hw.
  unfold CLEARBIT.
  rewrite SETBIT_value, NULLBIT_value, SETBITS_defined, CLEARBITS_defined by lia.
  split; f_equal; apply Z.bits_inj'; intros j Hj;
    rewrite !testbit_store, ?Z.lor_spec, !Z.land_spec, !testbit_not64;
    rewrite ?testbit_field_mask, ?testbit_field_value, ?testbit_pow2,
      ?testbit_one by lia;
    rewrite (testbit_in_range w bf j Hbf); cmp_cases; bool_cases.
Qed.

Lemma single_bit_as_field_witness :
  in_range W8 5 /\ SETBIT W8 5 67 = SETBITS W8 5 (67 mod 64) 1 1 /\
  CLEARBIT W8 5 66 = CLEARBITS W8 5 (66 mod 64) 1.
Proof.
  assert (R : in_range W8 5) by (unfold in_range; cbn; lia).
  exact (conj R (conj (proj1 (single_bit_as_field W8 5 67 R))
                      (proj2 (single_bit_as_field W8 5 66 R)))).
Defined.

(** ** Range macros: when they are defined *)

Lemma shl64_Some (x n a : Z) :
  shl64 x n = Some a -> 0 <= n <= 63 /\ a = u64 (Z.shiftl x n).
Proof.
  unfold shl64. destruct (Z.leb_spec 0 n); destruct (Z.ltb_spec n 64);
    cbn [andb]; intros E; inversion E; split; [lia|reflexivity].
Qed.

Lemma BITMASK_Some (n m : Z) :
  BITMASK n = Some m -> 0 <= n <= 63 /\ m = Z.ones n.
Proof.
  intros E. assert (R : 0 <= n <= 63).
  { unfold BITMASK in E. destruct (shl64 1 n) as [a|] eqn:Ea; [|discriminate].
    now apply shl64_Some in Ea. }
  split; [assumption|]. rewrite BITMASK_ones in E by assumption. now inversion E.
Qed.

Lemma BITMASK_undefined (n : Z) : ~ (0 <= n <= 63) -> BITMASK n = None.
Proof. intros H. unfold BITMASK. rewrite shl64_undefined by lia. reflexivity. Qed.

(** ** GETBITS *)

(** X12: where it is defined, [GETBITS(bf, start, len)] is
    [(bf / 2^start) mod 2^len], a value below [2^len]; it is 0 when the
    start is at or beyond the width of the operand, and the whole of
    [bf / 2^start] when the field reaches or passes the top of the operand
    (the missing bits read as 0). *)
Theorem GETBITS_arithmetic (w : width) (bf start len : Z) :
  in_range w bf -> 0 <= start < promoted_bits w -> 0 <= len <= 63 ->
  exists r,
    GETBITS w bf start len = Some r /\
    r = (bf / 2 ^ start) mod 2 ^ len /\
    0 <= r < 2 ^ len /\
    (bits w <= start -> r = 0) /\
    (bits w <= start + len -> r = bf / 2 ^ start).
Proof.
  intros Hbf Hs Hl. pose proof (bits_bounds w) as Hw.
  assert (P : 0 < 2 ^ len) by (apply Z.pow_pos_nonneg; lia).
  assert (Q : 0 < 2 ^ start) by (apply Z.pow_pos_nonneg; lia).
  exists ((bf / 2 ^ start) mod 2 ^ len). split; [|split; [reflexivity|split]].
  - unfold GETBITS, shr.
    destruct (Z.leb_spec 0 start); [|lia].
    destruct (Z.ltb_spec start (promoted_bits w)); [|lia].
    cbn [andb bind]. rewrite BITMASK_ones by assumption. cbn [bind].
    now rewrite Z.land_ones, Z.shiftr_div_pow2 by lia.
  - apply Z.mod_pos_bound. assumption.
  - unfold in_range in Hbf. split.
    + intros Hbeyond.
      assert (2 ^ bits w <= 2 ^ start) by (apply Z.pow_le_mono_r; lia).
      rewrite (Z.div_small bf) by lia. apply Z.mod_0_l. lia.
    + intros Hreach. apply Z.mod_small. split.
      * apply Z.div_pos; lia.
      * apply Z.div_lt_upper_bound; [assumption|].
        rewrite <- Z.pow_add_r by lia.
        assert (2 ^ bits w <= 2 ^ (start + len)) by (apply Z.pow_le_mono_r; lia).
        lia.
Qed.

Lemma GETBITS_arithmetic_witness :
  in_range W8 214 /\ 0 <= 6 < promoted_bits W8 /\ 0 <= 5 <= 63 /\
  exists r, GETBITS W8 214 6 5 = Some r /\ r = (214 / 2 ^ 6) mod 2 ^ 5 /\
            r = 214 / 2 ^ 6.
Proof.
  assert (R : in_range W8 214) by (unfold in_range; cbn; lia).
  assert (S : 0 <= 6 < promoted_bits W8) by (cbn; lia).
  assert (L : 0 <= 5 <= 63) by lia.
  destruct (GETBITS_arithmetic W8 214 6 5 R S L) as [r [H1 [H2 [_ [_ H5]]]]].
  refine (conj R (conj S (conj L (ex_intro _ r (conj H1 (conj H2 (H5 _))))))).
  cbn. lia.
Defined.

(** ** SETBITS and CLEARBITS, bit by bit *)

Lemma GETBITS_defined (w : width) (bf start len : Z) :
  0 <= start < promoted_bits w -> 0 <= len <= 63 ->
  GETBITS w bf start len = Some (Z.land (Z.shiftr bf start) (Z.ones len)).
Proof.
  intros Hs Hl. unfold GETBITS, shr.
  destruct (Z.leb_spec 0 start); [|lia].
  destruct (Z.ltb_spec start (promoted_bits w)); [|lia].
  cbn [andb bind]. now rewrite BITMASK_ones by assumption.
Qed.

Lemma SETBITS_undefined (w : width) (bf start len val : Z) :
  ~ (0 <= start <= 63 /\ 0 <= len <= 63) -> SETBITS w bf start len val = None.
Proof.
  intros H. unfold SETBITS. destruct (BITMASK len) as [m|] eqn:E; [|reflexivity].
  apply BITMASK_Some in E. cbn [bind]. now rewrite shl64_undefined by lia.
Qed.

Lemma CLEARBITS_undefined (w : width) (bf start len : Z) :
  ~ (0 <= start <= 63 /\ 0 <= len <= 63) -> CLEARBITS w bf start len = None.
Proof.
  intros H. unfold CLEARBITS. destruct (BITMASK len) as [m|] eqn:E; [|reflexivity].
  apply BITMASK_Some in E. cbn [bind]. now rewrite shl64_undefined by lia.
Qed.

(** Wherever C defines the outcome of [SETBITS] or [CLEARBITS], every
    machine computes it. *)
Lemma SETBITS_on_defined (count_of : Z -> Z) (w : width) (bf start len val r : Z) :
  SETBITS w bf start len val = Some r ->
  SETBITS_on count_of w bf start len val = r.
Proof.
  intros E.
  assert (D : (0 <= start <= 63 /\ 0 <= len <= 63)
              \/ ~ (0 <= start <= 63 /\ 0 <= len <= 63)) by lia.
  destruct D as [[Hs Hl]|D]; [|rewrite SETBITS_undefined in E by assumption;
                                discriminate].
  rewrite SETBITS_defined in E by lia. injection E as <-.
  unfold SETBITS_on. rewrite BITMASK_on_ones by assumption.
  now rewrite !shl64_on_math by lia.
Qed.

Lemma CLEARBITS_on_defined (count_of : Z -> Z) (w : width) (bf start len r : Z) :
  CLEARBITS w bf start len = Some r ->
  CLEARBITS_on count_of w bf start len = r.
Proof.
  intros E.
  assert (D : (0 <= start <= 63 /\ 0 <= len <= 63)
              \/ ~ (0 <= start <= 63 /\ 0 <= len <= 63)) by lia.
  destruct D as [[Hs Hl]|D]; [|rewrite CLEARBITS_undefined in E by assumption;
                                discriminate].
  rewrite CLEARBITS_defined in E by lia. injection E as <-.
  unfold CLEARBITS_on. rewrite BITMASK_on_ones by assumption.
  now rewrite !shl64_on_math by lia.
Qed.

Lemma testbit_set_field (w : width) (bf start len val j : Z) :
  in_range w bf -> 0 <= start -> 0 <= len <= 63 -> 0 <= j ->
  Z.testbit
    (store w (Z.lor (Z.land bf (not64 (u64 (Z.shiftl (Z.ones len) start))))
                    (u64 (Z.shiftl (Z.land (u64 val) (Z.ones len)) start)))) j
  = if (start <=? j) && (j <? start + len)
    then (j <? bits w) && Z.testbit val (j - start)
    else Z.testbit bf j.
Proof.
  intros Hbf Hs Hl Hj. pose proof (bits_bounds w) as Hw.
  rewrite testbit_store, Z.lor_spec, Z.land_spec, testbit_not64.
  rewrite testbit_field_mask, testbit_field_value by lia.
  rewrite (testbit_in_range w bf j Hbf). cmp_cases; bool_cases.
Qed.

Lemma testbit_clear_field (w : width) (bf start len j : Z) :
  in_range w bf -> 0 <= start -> 0 <= len <= 63 -> 0 <= j ->
  Z.testbit (store w (Z.land bf (not64 (u64 (Z.shiftl (Z.ones len) start))))) j
  = if (start <=? j) && (j <? start + len) then false else Z.testbit bf j.
Proof.
  intros Hbf Hs Hl Hj. pose proof (bits_bounds w) as Hw.
  rewrite testbit_store, Z.land_spec, testbit_not64.
  rewrite testbit_field_mask by lia.
  rewrite (testbit_in_range w bf j Hbf). cmp_cases; bool_cases.
Qed.

(** X13: writing back the field just read changes nothing: wherever
    [GETBITS(bf, start, len)] is defined, [SETBITS(bf, start, len, ...)]
    with the value it returned stores [bf]. *)
Theorem SETBITS_of_GETBITS (w : width) (bf start len : Z) :
  in_range w bf -> 0 <= start < promoted_bits w -> 0 <= len <= 63 ->
  (v <- GETBITS w bf start len ;; SETBITS w bf start len v) = Some bf.
Proof.
  intros Hbf Hs Hl. pose proof (bits_le_promoted w) as Hp.
  rewrite GETBITS_defined by assumption. cbn [bind].
  rewrite SETBITS_defined by lia. f_equal.
  apply Z.bits_inj'. intros j Hj. rewrite testbit_set_field by bit_side.
  destruct (Z.leb_spec start j); destruct (Z.ltb_spec j (start + len));
    cbn [andb]; try reflexivity.
  rewrite Z.land_spec, Z.shiftr_spec, Z.testbit_ones by lia.
  replace (j - start + start) with j by lia.
  rewrite (testbit_in_range w bf j Hbf). cmp_cases; bool_cases.
Qed.

Lemma SETBITS_of_GETBITS_witness :
  in_range W8 214 /\ 0 <= 1 < promoted_bits W8 /\ 0 <= 4 <= 63 /\
  (v <- GETBITS W8 214 1 4 ;; SETBITS W8 214 1 4 v) = Some 214.
Proof.
  assert (R : in_range W8 214) by (unfold in_range; cbn; lia).
  assert (S : 0 <= 1 < promoted_bits W8) by (cbn; lia).
  assert (L : 0 <= 4 <= 63) by lia.
  exact (conj R (conj S (conj L (SETBITS_of_GETBITS W8 214 1 4 R S L)))).
Defined.

(** X14: wherever [SETBITS] is defined, also for a field that passes the
    top of the operand, the stored value is in range, has the bits of [val]
    in the part of the field that lies inside the operand, and the bits of
    [bf] everywhere outside the field: the part of the field beyond the
    width is dropped. *)
Theorem SETBITS_truncates (w : width) (bf start len val : Z) :
  in_range w bf -> 0 <= start <= 63 -> 0 <= len <= 63 ->
  exists r,
    SETBITS w bf start len val = Some r /\
    in_range w r /\
    (forall j, start <= j < start + len -> j < bits w ->
               Z.testbit r j = Z.testbit val (j - start)) /\
    (forall j, ~ (start <= j < start + len) -> Z.testbit r j = Z.testbit bf j).
Proof.
  intros Hbf Hs Hl. eexists. split; [apply SETBITS_defined; lia|].
  split; [apply store_in_range|]. split.
  - intros j Hj Hjw. rewrite testbit_set_field by bit_side.
    cmp_cases. reflexivity.
  - intros j Hj. destruct (Z.leb_spec 0 j) as [Hj0|Hj0];
      [|now rewrite !Z.testbit_neg_r by assumption].
    rewrite testbit_set_field by bit_side. cmp_cases; reflexivity.
Qed.

Lemma SETBITS_truncates_witness :
  in_range W8 1 /\ 0 <= 6 <= 63 /\ 0 <= 4 <= 63 /\
  SETBITS W8 1 6 4 15 = Some 193.
Proof.
  assert (R : in_range W8 1) by (unfold in_range; cbn; lia).
  assert (S : 0 <= 6 <= 63) by lia.
  assert (L : 0 <= 4 <= 63) by lia.
  destruct (SETBITS_truncates W8 1 6 4 15 R S L) as [r [H1 _]].
  split; [exact R|]. split; [exact S|]. split; [exact L|].
  rewrite H1. f_equal. cbn in H1. now inversion H1.
Defined.

(** X15: wherever [CLEARBITS] is defined, the stored value has the bits of
    the field clear and every other bit as in [bf], and it never exceeds
    [bf]; when the start is also below the promoted width of the operand,
    so that [GETBITS] is defined, [GETBITS] on the same field then reads
    0. *)
Theorem CLEARBITS_field (w : width) (bf start len : Z) :
  in_range w bf -> 0 <= start <= 63 -> 0 <= len <= 63 ->
  exists r,
    CLEARBITS w bf start len = Some r /\
    in_range w r /\ r <= bf /\
    (forall j, start <= j < start + len -> Z.testbit r j = false) /\
    (forall j, ~ (start <= j < start + len) -> Z.testbit r j = Z.testbit bf j) /\
    (start < promoted_bits w -> GETBITS w r start len = Some 0).
Proof.
  intros Hbf Hs Hl. eexists. split; [apply CLEARBITS_defined; lia|].
  set (r := store w _).
  assert (Rr : in_range w r) by apply store_in_range.
  assert (Bin : forall j, start <= j < start + len -> Z.testbit r j = false).
  { intros j Hj. subst r. rewrite testbit_clear_field by bit_side.
    cmp_cases; reflexivity. }
  assert (Bout : forall j, ~ (start <= j < start + len) ->
                           Z.testbit r j = Z.testbit bf j).
  { intros j Hj. destruct (Z.leb_spec 0 j) as [Hj0|Hj0];
      [|now rewrite !Z.testbit_neg_r by assumption].
    subst r. rewrite testbit_clear_field by bit_side. cmp_cases; reflexivity. }
  split; [exact Rr|]. split; [|split; [exact Bin|split; [exact Bout|]]].
  - set (q := Z.land bf (u64 (Z.shiftl (Z.ones len) start))).
    assert (Hq : 0 <= q) by (apply Z.land_nonneg; left; unfold in_range in Hbf; lia).
    assert (D : Z.land r q = 0).
    { apply Z.bits_inj'. intros j Hj. subst q r.
      rewrite Z.land_spec, testbit_clear_field, Z.land_spec, testbit_field_mask,
        Z.testbit_0_l by bit_side.
      cmp_cases; bool_cases. }
    assert (E : Z.lor r q = bf).
    { apply Z.bits_inj'. intros j Hj. subst q r.
      rewrite Z.lor_spec, testbit_clear_field, Z.land_spec, testbit_field_mask
        by bit_side.
      pose proof (bits_bounds w). rewrite (testbit_in_range w bf j Hbf).
      cmp_cases; bool_cases. }
    rewrite <- Z.lxor_lor in E by assumption.
    rewrite <- Z.add_nocarry_lxor in E by assumption. lia.
  - intros Hp. rewrite GETBITS_defined by lia. f_equal.
    apply Z.bits_inj'. intros j Hj.
    rewrite Z.land_spec, Z.shiftr_spec, Z.testbit_ones, Z.testbit_0_l by lia.
    destruct (Z.ltb_spec j len); [|now rewrite !andb_false_r].
    now rewrite Bin by lia.
Qed.

Lemma CLEARBITS_field_witness :
  in_range W8 255 /\ 0 <= 2 <= 63 /\ 0 <= 3 <= 63 /\ 2 < promoted_bits W8 /\
  exists r, CLEARBITS W8 255 2 3 = Some r /\ r <= 255 /\
            GETBITS W8 r 2 3 = Some 0.
Proof.
  assert (R : in_range W8 255) by (unfold in_range; cbn; lia).
  assert (S : 0 <= 2 <= 63) by lia.
  assert (L : 0 <= 3 <= 63) by lia.
  assert (P : 2 < promoted_bits W8) by (cbn; lia).
  destruct (CLEARBITS_field W8 255 2 3 R S L) as [r [H1 [_ [H2 [_ [_ H3]]]]]].
  exact (conj R (conj S (conj L (conj P
           (ex_intro _ r (conj H1 (conj H2 (H3 P)))))))).
Defined.

(** X16: [SETBITS] looks at the low [len] bits of [val] only: reducing
    [val] modulo [2^len] beforehand gives the same outcome, for every start
    and length. *)
Theorem SETBITS_low_bits_of_val (w : width) (bf start len val : Z) :
  in_range w bf ->
  SETBITS w bf start len val = SETBITS w bf start len (val mod 2 ^ len).
Proof.
  intros Hbf.
  assert (D : (0 <= start <= 63 /\ 0 <= len <= 63)
              \/ ~ (0 <= start <= 63 /\ 0 <= len <= 63)) by lia.
  destruct D as [[Hs Hl]|D]; [|now rewrite !SETBITS_undefined by assumption].
  rewrite !SETBITS_defined by lia. f_equal.
  apply Z.bits_inj'. intros j Hj. rewrite !testbit_set_field by bit_side.
  destruct (Z.leb_spec start j); destruct (Z.ltb_spec j (start + len));
    cbn [andb]; try reflexivity.
  rewrite Z.testbit_mod_pow2 by lia. cmp_cases; bool_cases.
Qed.

Lemma SETBITS_low_bits_of_val_witness :
  in_range W8 0 /\ SETBITS W8 0 2 3 253 = SETBITS W8 0 2 3 (253 mod 2 ^ 3).
Proof.
  assert (R : in_range W8 0) by (unfold in_range; cbn; lia).
  exact (conj R (SETBITS_low_bits_of_val W8 0 2 3 253 R)).
Defined.

(** X17: two [SETBITS] on fields that do not overlap commute. *)
Theorem SETBITS_disjoint_commute (w : width) (bf s1 l1 v1 s2 l2 v2 : Z) :
  in_range w bf ->
  0 <= s1 -> 0 <= l1 -> s1 + l1 <= s2 -> s2 <= 63 -> 0 <= l2 <= 63 ->
  and_then (fun b => SETBITS w b s1 l1 v1) (fun b => SETBITS w b s2 l2 v2) bf
  = and_then (fun b => SETBITS w b s2 l2 v2) (fun b => SETBITS w b s1 l1 v1) bf.
Proof.
  intros Hbf Hs1 Hl1 Hd Hs2 Hl2. unfold and_then.
  rewrite !SETBITS_defined by lia. cbn [bind]. rewrite !SETBITS_defined by lia.
  f_equal. apply Z.bits_inj'. intros j Hj.
  rewrite !testbit_set_field by bit_side. cmp_cases; reflexivity.
Qed.

Lemma SETBITS_disjoint_commute_witness :
  in_range W8 0 /\
  and_then (fun b => SETBITS W8 b 0 3 5) (fun b => SETBITS W8 b 4 2 3) 0
  = and_then (fun b => SETBITS W8 b 4 2 3) (fun b => SETBITS W8 b 0 3 5) 0.
Proof.
  assert (R : in_range W8 0) by (unfold in_range; cbn; lia).
  split; [exact R|].
  apply (SETBITS_disjoint_commute W8 0 0 3 5 4 2 3 R); lia.
Defined.

(** X18: on one field the last [SETBITS] decides: [SETBITS] with [v1]
    followed by [SETBITS] of the same field with [v2] has the outcome of the
    second alone, for every start and length. *)
Theorem SETBITS_last_wins (w : width) (bf start len v1 v2 : Z) :
  in_range w bf ->
  and_then (fun b => SETBITS w b start len v1)
           (fun b => SETBITS w b start len v2) bf
  = SETBITS w bf start len v2.
Proof.
  intros Hbf. unfold and_then.
  assert (D : (0 <= start <= 63 /\ 0 <= len <= 63)
              \/ ~ (0 <= start <= 63 /\ 0 <= len <= 63)) by lia.
  destruct D as [[Hs Hl]|D]; [|now rewrite !SETBITS_undefined by assumption].
  rewrite !SETBITS_defined by lia. cbn [bind]. rewrite SETBITS_defined by lia.
  f_equal. apply Z.bits_inj'. intros j Hj.
  rewrite !testbit_set_field by bit_side. cmp_cases; reflexivity.
Qed.

Lemma SETBITS_last_wins_witness :
  in_range W8 255 /\
  and_then (fun b => SETBITS W8 b 2 3 7) (fun b => SETBITS W8 b 2 3 1) 255
  = SETBITS W8 255 2 3 1.
Proof.
  assert (R : in_range W8 255) by (unfold in_range; cbn; lia).
  exact (conj R (SETBITS_last_wins W8 255 2 3 7 1 R)).
Defined.

(** X19: a field of length 0 is empty: wherever the macros are defined,
    [SETBITS] and [CLEARBITS] with length 0 store the operand unchanged,
    whatever the value, and [GETBITS] with length 0 reads 0. *)
Theorem empty_field (w : width) (bf start val : Z) :
  in_range w bf -> 0 <= start <= 63 ->
  SETBITS w bf start 0 val = Some bf /\
  CLEARBITS w bf start 0 = Some bf /\
  (start < promoted_bits w -> GETBITS w bf start 0 = Some 0).
Proof.
  intros Hbf Hs. rewrite SETBITS_defined, CLEARBITS_defined by lia.
  repeat split.
  - f_equal. apply Z.bits_inj'. intros j Hj.
    rewrite testbit_set_field by bit_side. cmp_cases; reflexivity.
  - f_equal. apply Z.bits_inj'. intros j Hj.
    rewrite testbit_clear_field by bit_side. cmp_cases; reflexivity.
  - intros Hp. rewrite GETBITS_defined by lia. f_equal. apply Z.land_0_r.
Qed.

Lemma empty_field_witness :
  in_range W8 214 /\ 0 <= 3 <= 63 /\ 3 < promoted_bits W8 /\
  SETBITS W8 214 3 0 255 = Some 214 /\ CLEARBITS W8 214 3 0 = Some 214 /\
  GETBITS W8 214 3 0 = Some 0.
Proof.
  assert (R : in_range W8 214) by (unfold in_range; cbn; lia).
  assert (S : 0 <= 3 <= 63) by lia.
  assert (P : 3 < promoted_bits W8) by (cbn; lia).
  destruct (empty_field W8 214 3 255 R S) as [H1 [H2 H3]].
  exact (conj R (conj S (conj P (conj H1 (conj H2 (H3 P)))))).
Defined.

(** X20: a field that covers the whole operand works on the 8-, 16- and
    32-bit types ([CLEARBITS] gives 0, [GETBITS] gives the operand,
    [SETBITS] gives [val] reduced to the width), and is undefined on the
    64-bit type, whose width is not a valid length. *)
Theorem whole_operand_field (w : width) (bf val : Z) :
  in_range w bf ->
  (bits w < 64 ->
   CLEARBITS w bf 0 (bits w) = Some 0 /\
   GETBITS w bf 0 (bits w) = Some bf /\
   SETBITS w bf 0 (bits w) val = Some (val mod 2 ^ bits w)) /\
  (bits w = 64 ->
   CLEARBITS w bf 0 (bits w) = None /\
   GETBITS w bf 0 (bits w) = None /\
   SETBITS w bf 0 (bits w) val = None).
Proof.
  intros Hbf. pose proof (bits_bounds w) as Hw. split.
  - intros Hn. pose proof (bits_le_promoted w) as Hp.
    rewrite CLEARBITS_defined, GETBITS_defined, SETBITS_defined by lia.
    repeat split; f_equal; apply Z.bits_inj'; intros j Hj.
    + rewrite testbit_clear_field, Z.testbit_0_l by bit_side.
      rewrite (testbit_in_range w bf j Hbf). cmp_cases; bool_cases.
    + rewrite Z.land_spec, Z.shiftr_spec, Z.testbit_ones by lia.
      rewrite Z.add_0_r. rewrite (testbit_in_range w bf j Hbf) at 2.
      cmp_cases; bool_cases.
    + rewrite testbit_set_field, Z.testbit_mod_pow2 by bit_side.
      rewrite Z.sub_0_r. rewrite (testbit_in_range w bf j Hbf).
      cmp_cases; bool_cases.
  - intros Hn. rewrite Hn.
    rewrite CLEARBITS_undefined, SETBITS_undefined by lia.
    repeat split. unfold GETBITS.
    destruct (shr w bf 0) as [x|]; [cbn [bind]|reflexivity].
    now rewrite BITMASK_undefined by lia.
Qed.

Lemma whole_operand_field_witness :
  in_range W8 214 /\ bits W8 < 64 /\ in_range W64 214 /\ bits W64 = 64 /\
  CLEARBITS W8 214 0 (bits W8) = Some 0 /\
  GETBITS W8 214 0 (bits W8) = Some 214 /\
  CLEARBITS W64 214 0 (bits W64) = None.
Proof.
  assert (R : in_range W8 214) by (unfold in_range; cbn; lia).
  assert (N : bits W8 < 64) by (cbn; lia).
  assert (R' : in_range W64 214) by (unfold in_range; cbn; lia).
  assert (N' : bits W64 = 64) by reflexivity.
  destruct (proj1 (whole_operand_field W8 214 0 R) N) as [H1 [H2 _]].
  destruct (proj2 (whole_operand_field W64 214 0 R') N') as [H3 _].
  exact (conj R (conj N (conj R' (conj N' (conj H1 (conj H2 H3)))))).
Defined.

(** ** ONES and ZEROS, further *)

Lemma kernighan_out_of_fuel (w : width) (fuel : nat) :
  forall v c,
    in_range w v ->
    (fuel <= Z.to_nat (count_ones (Z.to_nat (bits w)) v))%nat ->
    kernighan w fuel v c = None.
Proof.
  induction fuel as [|fuel IH]; intros v c Hv Hfuel; [reflexivity|].
  cbn [kernighan]. destruct (Z.eqb_spec v 0) as [->|Hnz].
  - rewrite count_ones_zero in Hfuel. cbn in Hfuel. lia.
  - rewrite pred_promoted_value by assumption.
    apply IH; [apply store_in_range|].
    rewrite count_ones_store, clear_lowest_count.
    + pose proof (count_ones_range (Z.to_nat (bits w)) v). lia.
    + rewrite width_nat. unfold in_range in Hv. lia.
Qed.

(** X21: Kernighan's loop in the second branch of [ONES] tests its
    condition exactly once more than the operand has 1-bits: with that much
    fuel or more it returns the count, with less it has not finished. *)
Theorem kernighan_iterations (w : width) (fuel : nat) (bf : Z) :
  in_range w bf ->
  ((Z.to_nat (count_ones (Z.to_nat (bits w)) bf) < fuel)%nat ->
   ONES_fallback w fuel bf = Some (count_ones (Z.to_nat (bits w)) bf)) /\
  ((fuel <= Z.to_nat (count_ones (Z.to_nat (bits w)) bf))%nat ->
   ONES_fallback w fuel bf = None).
Proof.
  intros Hbf. unfold ONES_fallback. rewrite store_small by assumption. split.
  - intros Hfuel. now rewrite kernighan_count.
  - intros Hfuel. now apply kernighan_out_of_fuel.
Qed.

Lemma kernighan_iterations_witness :
  in_range W32 65537 /\
  ONES_fallback W32 3 65537 = Some 2 /\ ONES_fallback W32 2 65537 = None.
Proof.
  assert (R : in_range W32 65537) by (unfold in_range; cbn; lia).
  destruct (kernighan_iterations W32 3 65537 R) as [H1 _].
  destruct (kernighan_iterations W32 2 65537 R) as [_ H2].
  split; [exact R|]. split.
  - rewrite H1; [reflexivity|]. vm_compute. lia.
  - apply H2. vm_compute. lia.
Defined.

Lemma count_ones_none (n : nat) (x : Z) :
  count_ones n x = 0 ->
  forall j, 0 <= j < Z.of_nat n -> Z.testbit x j = false.
Proof.
  induction n as [|n IH]; intros H j Hj; [lia|].
  cbn [count_ones] in H. pose proof (count_ones_range n x).
  destruct (Z.testbit x (Z.of_nat n)) eqn:T; [lia|].
  destruct (Z.eq_dec j (Z.of_nat n)) as [->|Hne]; [assumption|].
  apply IH; lia.
Qed.

Lemma count_ones_all (n : nat) (x : Z) :
  count_ones n x = Z.of_nat n ->
  forall j, 0 <= j < Z.of_nat n -> Z.testbit x j = true.
Proof.
  induction n as [|n IH]; intros H j Hj; [lia|].
  cbn [count_ones] in H. pose proof (count_ones_range n x).
  destruct (Z.testbit x (Z.of_nat n)) eqn:T; [|lia].
  destruct (Z.eq_dec j (Z.of_nat n)) as [->|Hne]; [assumption|].
  apply IH; lia.
Qed.

(** X22: with either branch of the header, [ONES] is 0 exactly for the
    operand 0, and [ZEROS] is 0 exactly for the all-ones operand. *)
Theorem ONES_ZEROS_extremes (tc : toolchain) (w : width) (fuel : nat) (bf : Z) :
  in_range w bf -> (Z.to_nat (bits w) < fuel)%nat ->
  (ONES tc w fuel bf = Some 0 <-> bf = 0) /\
  (ZEROS tc w fuel bf = Some 0 <-> bf = all_ones w).
Proof.
  intros Hbf Hfuel. pose proof (bits_bounds w) as Hw.
  pose proof (count_ones_range (Z.to_nat (bits w)) bf) as Hr.
  rewrite width_nat in Hr.
  unfold ZEROS. rewrite ONES_count by assumption. cbn [bind]. fold (bits w).
  rewrite (wrap_small 64 (count_ones _ _)) by lia.
  rewrite (wrap_small 64) by lia. split; split.
  - intros E. injection E as E'. apply Z.bits_inj'. intros j Hj.
    rewrite Z.testbit_0_l. destruct (Z.ltb_spec j (bits w)).
    + apply (count_ones_none _ _ E'). rewrite width_nat. lia.
    + now apply (testbit_above w).
  - intros ->. now rewrite count_ones_zero.
  - intros E. injection E as E'.
    assert (F : count_ones (Z.to_nat (bits w)) bf = Z.of_nat (Z.to_nat (bits w)))
      by (rewrite width_nat; lia).
    unfold all_ones.
    replace (2 ^ bits w - 1) with (Z.ones (bits w)) by (rewrite Z.ones_equiv; lia).
    apply Z.bits_inj'. intros j Hj.
    rewrite Z.testbit_ones_nonneg by lia. destruct (Z.ltb_spec j (bits w)).
    + apply (count_ones_all _ _ F). rewrite width_nat. lia.
    + now apply (testbit_above w).
  - intros ->. f_equal. destruct w; vm_compute; reflexivity.
Qed.

Lemma ONES_ZEROS_extremes_witness :
  in_range W8 255 /\ (Z.to_nat (bits W8) < 9)%nat /\
  ZEROS OtherCompiler W8 9 255 = Some 0 /\ ONES GnuOrClang W8 9 0 = Some 0.
Proof.
  assert (R : in_range W8 255) by (unfold in_range; cbn; lia).
  assert (R0 : in_range W8 0) by (unfold in_range; cbn; lia).
  assert (F : (Z.to_nat (bits W8) < 9)%nat) by (cbn; lia).
  destruct (ONES_ZEROS_extremes OtherCompiler W8 9 255 R F) as [_ [_ H1]].
  destruct (ONES_ZEROS_extremes GnuOrClang W8 9 0 R0 F) as [[_ H2] _].
  exact (conj R (conj F (conj (H1 eq_refl) (H2 eq_refl)))).
Defined.

(** Two values that agree on all counted bits but one have counts that
    differ by the values of that bit. *)
Lemma count_ones_one_bit (n : nat) (x y k : Z) :
  0 <= k < Z.of_nat n ->
  (forall j, 0 <= j < Z.of_nat n -> j <> k -> Z.testbit y j = Z.testbit x j) ->
  count_ones n y - bit_value (Z.testbit y k)
  = count_ones n x - bit_value (Z.testbit x k).
Proof.
  induction n as [|n IH]; intros Hk H; [lia|].
  cbn [count_ones]. destruct (Z.eq_dec k (Z.of_nat n)) as [->|Hne].
  - rewrite (count_ones_ext n y x) by (intros j Hj; apply H; lia).
    unfold bit_value. lia.
  - rewrite (H (Z.of_nat n)) by lia.
    assert (E : count_ones n y - bit_value (Z.testbit y k)
                = count_ones n x - bit_value (Z.testbit x k)).
    { apply IH; [lia|]. intros j Hj Hjk. apply H; lia. }
    lia.
Qed.

(** X23: for an index that wraps to a position inside the operand, [ONES]
    after [SETBIT] is one more than before when the bit was clear and the
    same when it was set; after [CLEARBIT] one less when the bit was set and
    the same when it was clear; after [TOGGLEBIT] one less or one more. *)
Theorem ONES_after_single_bit (tc : toolchain) (w : width) (fuel : nat) (bf i : Z) :
  in_range w bf -> i mod 64 < bits w -> (Z.to_nat (bits w) < fuel)%nat ->
  exists n,
    ONES tc w fuel bf = Some n /\
    ONES_after tc w fuel (SETBIT w bf i)
    = Some (if Z.testbit bf (i mod 64) then n else n + 1) /\
    ONES_after tc w fuel (CLEARBIT w bf i)
    = Some (if Z.testbit bf (i mod 64) then n - 1 else n) /\
    ONES_after tc w fuel (TOGGLEBIT w bf i)
    = Some (if Z.testbit bf (i mod 64) then n - 1 else n + 1).
Proof.
  intros Hbf Hi Hfuel. pose proof (index_range i) as Hk.
  exists (count_ones (Z.to_nat (bits w)) bf).
  split; [now apply ONES_count|].
  unfold ONES_after, CLEARBIT.
  rewrite SETBIT_value, NULLBIT_value, TOGGLEBIT_value. cbn [bind].
  rewrite !ONES_count by bit_side.
  assert (K : 0 <= i mod 64 < Z.of_nat (Z.to_nat (bits w)))
    by (rewrite width_nat; lia).
  repeat split; f_equal.
  - pose proof (count_ones_one_bit (Z.to_nat (bits w)) bf
                  (store w (Z.lor bf (2 ^ (i mod 64)))) (i mod 64) K) as C.
    rewrite testbit_set, Z.eqb_refl in C by bit_side.
    lapply C.
    + clear C. intros C. revert C. cmp_cases. rewrite orb_true_r.
      unfold bit_value. destruct (Z.testbit bf (i mod 64)); lia.
    + intros j Hj Hne. rewrite testbit_set by bit_side.
      rewrite width_nat in Hj. cmp_cases. now rewrite orb_false_r.
  - pose proof (count_ones_one_bit (Z.to_nat (bits w)) bf
                  (store w (Z.land bf (not64 (2 ^ (i mod 64))))) (i mod 64) K) as C.
    rewrite testbit_clear, Z.eqb_refl in C by bit_side.
    lapply C.
    + clear C. intros C. revert C. rewrite andb_false_r.
      unfold bit_value. destruct (Z.testbit bf (i mod 64)); lia.
    + intros j Hj Hne. rewrite testbit_clear by bit_side.
      cmp_cases. now rewrite andb_true_r.
  - pose proof (count_ones_one_bit (Z.to_nat (bits w)) bf
                  (store w (Z.lxor bf (2 ^ (i mod 64)))) (i mod 64) K) as C.
    rewrite testbit_toggle, Z.eqb_refl in C by bit_side.
    lapply C.
    + clear C. intros C. revert C. cmp_cases.
      unfold bit_value. destruct (Z.testbit bf (i mod 64)); cbn [xorb]; lia.
    + intros j Hj Hne. rewrite testbit_toggle by bit_side.
      rewrite width_nat in Hj. cmp_cases. now rewrite xorb_false_r.
Qed.

Lemma ONES_after_single_bit_witness :
  in_range W8 5 /\ 1 mod 64 < bits W8 /\ (Z.to_nat (bits W8) < 9)%nat /\
  exists n, ONES OtherCompiler W8 9 5 = Some n /\
            ONES_after OtherCompiler W8 9 (SETBIT W8 5 1) = Some (n + 1).
Proof.
  assert (R : in_range W8 5) by (unfold in_range; cbn; lia).
  assert (I : 1 mod 64 < bits W8) by (cbn; lia).
  assert (F : (Z.to_nat (bits W8) < 9)%nat) by (cbn; lia).
  destruct (ONES_after_single_bit OtherCompiler W8 9 5 1 R I F) as [n [H1 [H2 _]]].
  exact (conj R (conj I (conj F (ex_intro _ n (conj H1 H2))))).
Defined.

Lemma count_ones_of_mask (m : nat) (n : Z) :
  0 <= n -> count_ones m (Z.ones n) = Z.min (Z.of_nat m) n.
Proof.
  intros Hn. induction m as [|m IH]; [cbn; lia|].
  cbn [count_ones]. rewrite IH, Z.testbit_ones_nonneg by lia.
  destruct (Z.ltb_spec (Z.of_nat m) n); lia.
Qed.

(** X24: [ONES] of the 64-bit value [BITMASK(n)] is [n], for every [n] for
    which the mask is defined. *)
Theorem ONES_of_BITMASK (tc : toolchain) (fuel : nat) (n : Z) :
  0 <= n <= 63 -> (64 < fuel)%nat ->
  ONES_after tc W64 fuel (BITMASK n) = Some n.
Proof.
  intros Hn Hfuel. unfold ONES_after. rewrite BITMASK_ones by assumption.
  cbn [bind]. rewrite ONES_count.
  - f_equal. rewrite count_ones_of_mask by lia.
    change (Z.of_nat (Z.to_nat (bits W64))) with 64. lia.
  - pose proof (ones_range n ltac:(lia)). unfold in_range.
    change (bits W64) with 64. lia.
  - exact Hfuel.
Qed.

Lemma ONES_of_BITMASK_witness :
  0 <= 5 <= 63 /\ (64 < 65)%nat /\
  ONES_after OtherCompiler W64 65 (BITMASK 5) = Some 5.
Proof.
  assert (N : 0 <= 5 <= 63) by lia.
  assert (F : (64 < 65)%nat) by lia.
  exact (conj N (conj F (ONES_of_BITMASK OtherCompiler 65 5 N F))).
Defined.

(** ** BITS, further *)

Lemma BITS_body_in_range (w : width) (bf : Z) (c : ascii) :
  in_range w (BITS_body w bf c).
Proof. apply store_in_range. Qed.

Lemma BITS_loop_in_range (w : width) (s : string) :
  forall acc, in_range w acc -> in_range w (BITS_loop w s acc).
Proof.
  induction s as [|c s IH]; intros acc Hacc; [exact Hacc|].
  cbn [BITS_loop]. destruct (Ascii.eqb c zero); [exact Hacc|].
  apply IH. apply BITS_body_in_range.
Qed.

Lemma BITS_loop_stop (w : width) (s1 s2 : string) :
  forall acc,
    BITS_loop w (s1 ++ String zero s2) acc = BITS_loop w s1 acc.
Proof.
  induction s1 as [|c s1 IH]; intros acc; cbn [append BITS_loop].
  - reflexivity.
  - destruct (Ascii.eqb c zero); [reflexivity|apply IH].
Qed.

(** X25: [BITS] reads the characters up to the first NUL only: whatever
    follows a NUL does not change the result; and the result always is a
    value of the destination type. *)
Theorem BITS_stops_at_NUL (w : width) (s1 s2 : string) :
  BITS w (s1 ++ String zero s2) = BITS w s1 /\ in_range w (BITS w s1).
Proof.
  split.
  - apply BITS_loop_stop.
  - apply BITS_loop_in_range. apply zero_in_range.
Qed.

Lemma BITS_loop_app (w : width) (s1 s2 : string) :
  c_string s1 = true ->
  forall acc,
    BITS_loop w (s1 ++ s2) acc = BITS_loop w s2 (BITS_loop w s1 acc).
Proof.
  induction s1 as [|c s1 IH]; intros Hs acc; [reflexivity|].
  cbn in Hs. apply andb_prop in Hs. destruct Hs as [Hc Hs].
  cbn [append BITS_loop]. destruct (Ascii.eqb c zero); [discriminate|].
  now apply IH.
Qed.

Lemma BITS_value (w : width) (s : string) :
  c_string s = true -> BITS w s = msb_first s mod 2 ^ bits w.
Proof.
  intros Hs. unfold BITS. rewrite (BITS_loop_value w s Hs 0 (zero_in_range w)).
  now rewrite Z.mul_0_l, Z.add_0_l.
Qed.

(** X26: [BITS] of two C strings one after the other is [BITS] of the
    first, shifted left by the length of the second, plus [BITS] of the
    second, reduced to the width of the destination. *)
Theorem BITS_append (w : width) (s1 s2 : string) :
  c_string s1 = true -> c_string s2 = true ->
  BITS w (s1 ++ s2)
  = (BITS w s1 * 2 ^ Z.of_nat (String.length s2) + BITS w s2) mod 2 ^ bits w.
Proof.
  intros H1 H2. unfold BITS at 1. rewrite BITS_loop_app by assumption.
  fold (BITS w s1).
  rewrite (BITS_loop_value w s2 H2 (BITS w s1))
    by (apply BITS_loop_in_range, zero_in_range).
  rewrite (BITS_value w s2 H2). now rewrite Zplus_mod_idemp_r.
Qed.

Lemma BITS_append_witness :
  c_string "101" = true /\ c_string "10" = true /\
  BITS W8 ("101" ++ "10")
  = (BITS W8 "101" * 2 ^ Z.of_nat (String.length "10") + BITS W8 "10")
    mod 2 ^ bits W8.
Proof.
  assert (A : c_string "101" = true) by reflexivity.
  assert (B : c_string "10" = true) by reflexivity.
  exact (conj A (conj B (BITS_append W8 "101" "10" A B))).
Defined.

(** X27: only the last characters count: when the second of two C strings
    is at least as long as the destination is wide, [BITS] of the two
    strings one after the other is [BITS] of the second; the earlier
    characters are shifted out. *)
Theorem BITS_keeps_last (w : width) (s1 s2 : string) :
  c_string s1 = true -> c_string s2 = true ->
  bits w <= Z.of_nat (String.length s2) ->
  BITS w (s1 ++ s2) = BITS w s2.
Proof.
  intros H1 H2 Hlen. pose proof (bits_bounds w) as Hw.
  unfold BITS at 1. rewrite BITS_loop_app by assumption.
  rewrite (BITS_loop_value w s2 H2 (BITS_loop w s1 0))
    by (apply BITS_loop_in_range, zero_in_range).
  rewrite (BITS_value w s2 H2).
  replace (Z.of_nat (String.length s2))
    with ((Z.of_nat (String.length s2) - bits w) + bits w) by lia.
  rewrite Z.pow_add_r, Z.mul_assoc by lia.
  now rewrite Z.add_comm, Z_mod_plus_full.
Qed.

Lemma BITS_keeps_last_witness :
  c_string "111" = true /\ c_string "00000101" = true /\
  bits W8 <= Z.of_nat (String.length "00000101") /\
  BITS W8 ("111" ++ "00000101") = BITS W8 "00000101".
Proof.
  assert (A : c_string "111" = true) by reflexivity.
  assert (B : c_string "00000101" = true) by reflexivity.
  assert (L : bits W8 <= Z.of_nat (String.length "00000101")) by (cbn; lia).
  exact (conj A (conj B (conj L (BITS_keeps_last W8 "111" "00000101" A B L)))).
Defined.

Lemma testbit_below_pow2 (r n j : Z) :
  0 <= n -> 0 <= r < 2 ^ n -> n <= j -> Z.testbit r j = false.
Proof.
  intros Hn Hr Hj. rewrite <- (Z.mod_small r (2 ^ n)) by assumption.
  rewrite Z.testbit_mod_pow2 by assumption.
  destruct (Z.ltb_spec j n); [lia|reflexivity].
Qed.

(** Bits of a digit placed right above a number of [n] bits. *)
Lemma testbit_digit_above (c : ascii) (r n j : Z) :
  0 <= n -> 0 <= r < 2 ^ n -> 0 <= j ->
  Z.testbit (is_one c * 2 ^ n + r) j
  = Z.testbit r j || (Ascii.eqb c "1" && (n =? j)).
Proof.
  intros Hn Hr Hj. unfold is_one. destruct (Ascii.eqb c "1"); cbn [andb].
  - rewrite Z.mul_1_l, Z.add_comm.
    rewrite <- add_pow2_bit by (try apply (testbit_below_pow2 r n n); lia).
    now rewrite Z.lor_spec, testbit_pow2.
  - now rewrite Z.mul_0_l, Z.add_0_l, orb_false_r.
Qed.

Lemma testbit_msb_first (s : string) :
  forall k, (k < String.length s)%nat ->
            Z.testbit (msb_first s) (Z.of_nat k)
            = char_is_one (String.get (String.length s - 1 - k) s).
Proof.
  induction s as [|c s IH]; intros k Hk; [cbn in Hk; lia|].
  cbn [msb_first String.length] in *.
  pose proof (msb_first_range s) as Hr.
  rewrite testbit_digit_above by lia.
  destruct (Nat.eq_dec k (String.length s)) as [->|Hne].
  - rewrite Z.eqb_refl, andb_true_r.
    rewrite (testbit_below_pow2 _ (Z.of_nat (String.length s))) by lia.
    replace (S (String.length s) - 1 - String.length s)%nat with 0%nat by lia.
    reflexivity.
  - destruct (Z.eqb_spec (Z.of_nat (String.length s)) (Z.of_nat k)); [lia|].
    rewrite andb_false_r, orb_false_r. rewrite IH by lia.
    replace (S (String.length s) - 1 - k)%nat
      with (S (String.length s - 1 - k))%nat by lia.
    reflexivity.
Qed.

Lemma BITS_exact (w : width) (s : string) :
  c_string s = true -> Z.of_nat (String.length s) <= bits w ->
  BITS w s = msb_first s.
Proof.
  intros Hs Hlen. rewrite BITS_value by assumption. apply Z.mod_small.
  pose proof (msb_first_range s) as [H0 H1]. split; [assumption|].
  eapply Z.lt_le_trans; [exact H1|]. apply Z.pow_le_mono_r; lia.
Qed.

(** X28: for a C string not longer than the destination is wide, [ISSET]
    on the result of [BITS] at position [k] tells whether the character [k]
    places from the right end is '1'; the rightmost character is bit 0. *)
Theorem ISSET_of_BITS (w : width) (s : string) (k : nat) :
  c_string s = true -> Z.of_nat (String.length s) <= bits w ->
  (k < String.length s)%nat ->
  ISSET (BITS w s) (Z.of_nat k)
  = Some (char_is_one (String.get (String.length s - 1 - k) s)).
Proof.
  intros Hs Hlen Hk. pose proof (bits_bounds w) as Hw.
  rewrite ISSET_value, BITS_exact by assumption. f_equal.
  rewrite Z.mod_small by lia. now apply testbit_msb_first.
Qed.

Lemma ISSET_of_BITS_witness :
  c_string "1011" = true /\ Z.of_nat (String.length "1011") <= bits W8 /\
  (2 < String.length "1011")%nat /\
  ISSET (BITS W8 "1011") (Z.of_nat 2) = Some false.
Proof.
  assert (C : c_string "1011" = true) by reflexivity.
  assert (L : Z.of_nat (String.length "1011") <= bits W8) by (cbn; lia).
  assert (K : (2 < String.length "1011")%nat) by (cbn; lia).
  split; [exact C|]. split; [exact L|]. split; [exact K|].
  rewrite (ISSET_of_BITS W8 "1011" 2 C L K). reflexivity.
Defined.

Lemma count_ones_msb_first (n : nat) (s : string) :
  (String.length s <= n)%nat -> count_ones n (msb_first s) = count_one_chars s.
Proof.
  induction s as [|c s IH]; intros Hlen.
  - cbn [msb_first count_one_chars]. apply count_ones_zero.
  - cbn [msb_first count_one_chars String.length] in *.
    pose proof (msb_first_range s) as Hr.
    assert (K : 0 <= Z.of_nat (String.length s) < Z.of_nat n) by lia.
    pose proof (count_ones_one_bit n (msb_first s)
                  (is_one c * 2 ^ Z.of_nat (String.length s) + msb_first s)
                  (Z.of_nat (String.length s)) K) as C.
    rewrite testbit_digit_above, Z.eqb_refl, andb_true_r in C by lia.
    rewrite (testbit_below_pow2 (msb_first s) (Z.of_nat (String.length s))) in C
      by lia.
    cbn [orb] in C. rewrite IH in C by lia.
    lapply C.
    + unfold bit_value, is_one. destruct (Ascii.eqb c "1"); lia.
    + intros j Hj Hne. rewrite testbit_digit_above by lia.
      destruct (Z.eqb_spec (Z.of_nat (String.length s)) j); [lia|].
      now rewrite andb_false_r, orb_false_r.
Qed.

(** X29: for a C string not longer than the destination is wide, [ONES] on
    the result of [BITS] is the number of characters '1' in the string, with
    either branch of the header. *)
Theorem ONES_of_BITS (tc : toolchain) (w : width) (fuel : nat) (s : string) :
  c_string s = true -> Z.of_nat (String.length s) <= bits w ->
  (Z.to_nat (bits w) < fuel)%nat ->
  ONES tc w fuel (BITS w s) = Some (count_one_chars s).
Proof.
  intros Hs Hlen Hfuel.
  rewrite ONES_count;
    [|apply BITS_loop_in_range, zero_in_range|assumption].
  rewrite BITS_exact by assumption. f_equal.
  apply count_ones_msb_first. lia.
Qed.

Lemma ONES_of_BITS_witness :
  c_string "1a011" = true /\ Z.of_nat (String.length "1a011") <= bits W8 /\
  (Z.to_nat (bits W8) < 9)%nat /\
  ONES OtherCompiler W8 9 (BITS W8 "1a011") = Some 3.
Proof.
  assert (C : c_string "1a011" = true) by reflexivity.
  assert (L : Z.of_nat (String.length "1a011") <= bits W8) by (cbn; lia).
  assert (F : (Z.to_nat (bits W8) < 9)%nat) by (cbn; lia).
  exact (conj C (conj L (conj F (ONES_of_BITS OtherCompiler W8 9 "1a011" C L F)))).
Defined.
